(** * ENS text-record resolution ([getEnsText]): model and properties

    The development follows [actions/ens/getEnsText.ts].  Pure helpers are
    Rocq functions, the single outbound [readContract] call is recorded in
    an explicit log, JavaScript exceptions are an error result, and the
    object that collects the records is a plain JavaScript object, with its
    prototype and its order of properties. *)

From Stdlib Require Import List Strings.String Strings.Ascii Strings.Byte NArith Bool Lia Arith.
From Stdlib Require Import Sorting.Permutation.
Import ListNotations.
Local Open Scope string_scope.
Local Open Scope list_scope.

(** ** Keccak-256 *)

(** The hash under the name hash.  It is the sponge over Keccak-f[1600]
    with rate 136 bytes and the original Keccak padding, on 64-bit lanes
    held in [N]; the hash itself comes from a library outside the
    repository. *)
Module Keccak.
Local Open Scope N_scope.

Definition lane_mask : N := 0xFFFFFFFFFFFFFFFF.

Definition rotl64 (w : N) (n : N) : N :=
  N.land (N.lor (N.shiftl w n) (N.shiftr w (64 - n))) lane_mask.

Definition round_constants : list N :=
  [ 0x0000000000000001; 0x0000000000008082; 0x800000000000808A;
    0x8000000080008000; 0x000000000000808B; 0x0000000080000001;
    0x8000000080008081; 0x8000000000008009; 0x000000000000008A;
    0x0000000000000088; 0x0000000080008009; 0x000000008000000A;
    0x000000008000808B; 0x800000000000008B; 0x8000000000008089;
    0x8000000000008003; 0x8000000000008002; 0x8000000000000080;
    0x000000000000800A; 0x800000008000000A; 0x8000000080008081;
    0x8000000000008080; 0x0000000080000001; 0x8000000080008008 ].

(** Rotation offsets, lane [(x, y)] at position [x + 5 * y]. *)
Definition rotation_offsets : list N :=
  [  0;  1; 62; 28; 27;
    36; 44;  6; 55; 20;
     3; 10; 43; 25; 39;
    41; 45; 15; 21;  8;
    18;  2; 61; 56; 14 ].

Definition lane (st : list N) (x y : nat) : N :=
  nth (x mod 5 + 5 * (y mod 5))%nat st 0.

Definition coords : list (nat * nat) :=
  flat_map (fun y => map (fun x => (x, y)) (seq 0 5)) (seq 0 5).

Definition theta (st : list N) : list N :=
  let c := map (fun x =>
              N.lxor (lane st x 0) (N.lxor (lane st x 1) (N.lxor (lane st x 2)
                (N.lxor (lane st x 3) (lane st x 4))))) (seq 0 5) in
  let d := map (fun x =>
              N.lxor (nth ((x + 4) mod 5)%nat c 0)
                     (rotl64 (nth ((x + 1) mod 5)%nat c 0) 1)) (seq 0 5) in
  map (fun '(x, y) => N.lxor (lane st x y) (nth x d 0)) coords.

(** [rho] and [pi] together: the lane written at [(x, y)] is the rotated
    lane read at [((x + 3 * y) mod 5, x)]. *)
Definition rho_pi (st : list N) : list N :=
  map (fun '(x, y) =>
         let x' := ((x + 3 * y) mod 5)%nat in
         rotl64 (lane st x' x) (nth (x' + 5 * x)%nat rotation_offsets 0))
      coords.

Definition chi (st : list N) : list N :=
  map (fun '(x, y) =>
         N.lxor (lane st x y)
                (N.ldiff (lane st (x + 2) y) (lane st (x + 1) y)))
      coords.

Definition iota (rc : N) (st : list N) : list N :=
  match st with
  | [] => []
  | a :: rest => N.lxor a rc :: rest
  end.

Definition keccak_round (st : list N) (rc : N) : list N :=
  iota rc (chi (rho_pi (theta st))).

Definition keccak_f (st : list N) : list N :=
  fold_left keccak_round round_constants st.

Definition rate : nat := 136.

Definition pad (msg : list N) : list N :=
  let q := (rate - List.length msg mod rate)%nat in
  match q with
  | 1%nat => msg ++ [0x81]
  | _ => msg ++ [0x01] ++ repeat 0 (q - 2) ++ [0x80]
  end.

Fixpoint le_bytes_to_N (bs : list N) : N :=
  match bs with
  | [] => 0
  | b :: rest => N.lor b (N.shiftl (le_bytes_to_N rest) 8)
  end.

Definition block_lanes (block : list N) : list N :=
  map (fun i => le_bytes_to_N (firstn 8 (skipn (8 * i) block))) (seq 0 25).

Definition xor_block (st block : list N) : list N :=
  map (fun '(a, b) => N.lxor a b) (combine st (block_lanes block)).

Fixpoint absorb (blocks : nat) (st msg : list N) : list N :=
  match blocks with
  | O => st
  | S k => absorb k (keccak_f (xor_block st (firstn rate msg))) (skipn rate msg)
  end.

Definition state_byte (st : list N) (i : nat) : N :=
  N.land (N.shiftr (nth (i / 8) st 0) (8 * N.of_nat (i mod 8))) 0xFF.

Definition byte_of_N (n : N) : byte :=
  match Byte.of_N (n mod 256) with
  | Some b => b
  | None => x00
  end.

Definition keccak256 (msg : list byte) : list byte :=
  let padded := pad (map Byte.to_N msg) in
  let st := absorb (List.length padded / rate) (repeat 0 25) padded in
  map (fun i => byte_of_N (state_byte st i)) (seq 0 32).

End Keccak.

Definition hex_digit (n : N) : ascii :=
  nth (N.to_nat n) (list_ascii_of_string "0123456789abcdef") "0"%char.

Definition bytesToHex (bs : list byte) : string :=
  String.append "0x" (string_of_list_ascii
            (flat_map (fun b => [hex_digit (Byte.to_N b / 16);
                                 hex_digit (Byte.to_N b mod 16)]) bs)).

Definition stringToBytes (s : string) : list byte := list_byte_of_string s.

(** ** Name hash *)

(** [name.split('.')]: the labels of a name, left to right. *)
Fixpoint split_labels (name : string) : list string :=
  match name with
  | EmptyString => [EmptyString]
  | String c rest =>
      if Ascii.eqb c "."%char then EmptyString :: split_labels rest
      else match split_labels rest with
           | [] => [String c EmptyString]
           | label :: labels => String c label :: labels
           end
  end.

Definition zero_digest : list byte := repeat x00 32.

(** One step of the name hash: [digest := hash (digest ++ hash label)]. *)
Definition namehash_step (label : string) (digest : list byte) : list byte :=
  Keccak.keccak256 (digest ++ Keccak.keccak256 (stringToBytes label)).

(** The labels are folded from the right: the rightmost label is hashed
    into the zero digest first, the leftmost last. *)
Definition namehash_labels (labels : list string) : list byte :=
  fold_right namehash_step zero_digest labels.

(** Modelled from the spec: [namehash] ([utils/ens/namehash.js] is imported
    by [getEnsText] but is not among the sources).  It starts from the
    32-byte zero digest and, for each label from the rightmost to the
    leftmost, sets [digest := hash (digest ++ hash labelBytes)]; the hash is
    Keccak-256, the hash of the ENS registry. *)
Definition namehash (name : string) : list byte :=
  namehash_labels (split_labels name).





(** ** JavaScript values and the record object *)

Definition Hex := string.
Definition Address := string.
Definition RecordKey := string.

(** [RecordKeyOrKeys]: one key, or an array of keys. *)
Inductive RecordKeyOrKeys :=
| Key (k : RecordKey)
| Keys (ks : list RecordKey).

(** A decoded record is [null] ([None]) or a string. *)
Definition DecodedRecord := option string.

(** [Record<TRecordKeys, string | null>]: the plain object that starts as
    the literal [{}].  [has_prototype] tells whether its prototype is still
    [Object.prototype] (an assignment of [null] to [__proto__] clears it);
    [properties] are its own properties in the order in which JavaScript
    lists them: the array-index names first, in ascending numeric order,
    then the other names in the order in which they were created. *)
Record Records := {
  has_prototype : bool;
  properties : list (RecordKey * DecodedRecord)
}.

(** The object literal [{}]. *)
Definition empty_object : Records :=
  {| has_prototype := true; properties := [] |}.

(** The values [getEnsText] can return.  [VObjectPrototype] is the object
    [Object.prototype] and [VFunction name] is its method [name]: both are
    what reading an inherited property gives. *)
Inductive value :=
| VUndefined
| VNull
| VString (s : string)
| VRecords (o : Records)
| VObjectPrototype
| VFunction (name : string).

Definition value_of_record (r : DecodedRecord) : value :=
  match r with
  | None => VNull
  | Some s => VString s
  end.

(** The data properties of [Object.prototype], all of them writable
    methods; [__proto__] is its one accessor property. *)
Definition prototype_methods : list string :=
  ["constructor"; "__defineGetter__"; "__defineSetter__"; "hasOwnProperty";
   "__lookupGetter__"; "__lookupSetter__"; "isPrototypeOf";
   "propertyIsEnumerable"; "toString"; "valueOf"; "toLocaleString"].

Definition digit (c : ascii) : option N :=
  let n := N_of_ascii c in
  if (N.leb 48 n && N.leb n 57)%bool then Some (n - 48)%N else None.

Fixpoint digits_value (s : string) (acc : N) : option N :=
  match s with
  | EmptyString => Some acc
  | String c rest =>
      match digit c with
      | Some d => digits_value rest (10 * acc + d)%N
      | None => None
      end
  end.

(** An array index is the canonical decimal name of an integer from [0] to
    [2^32 - 2]: digits only, no leading zero. *)
Definition array_index (k : RecordKey) : option N :=
  match k with
  | EmptyString => None
  | String c rest =>
      if Ascii.eqb c "0"%char then
        match rest with
        | EmptyString => Some 0%N
        | String _ _ => None
        end
      else
        match digits_value k 0 with
        | Some n => if N.ltb n 4294967295 then Some n else None
        | None => None
        end
  end.

Fixpoint own_lookup (l : list (RecordKey * DecodedRecord)) (k : RecordKey)
  : option DecodedRecord :=
  match l with
  | [] => None
  | (k', v') :: rest => if String.eqb k' k then Some v' else own_lookup rest k
  end.

(** A new value for a property that exists: its place is kept. *)
Fixpoint own_update (l : list (RecordKey * DecodedRecord)) (k : RecordKey)
    (v : DecodedRecord) : list (RecordKey * DecodedRecord) :=
  match l with
  | [] => []
  | (k', v') :: rest =>
      if String.eqb k' k then (k', v) :: rest else (k', v') :: own_update rest k v
  end.

(** A new array-index property goes before the first property that is not
    an array index below it. *)
Fixpoint insert_index (n : N) (k : RecordKey) (v : DecodedRecord)
    (l : list (RecordKey * DecodedRecord)) : list (RecordKey * DecodedRecord) :=
  match l with
  | [] => [(k, v)]
  | (k', v') :: rest =>
      match array_index k' with
      | Some n' =>
          if N.ltb n' n then (k', v') :: insert_index n k v rest
          else (k, v) :: l
      | None => (k, v) :: l
      end
  end.

(** A new property: an array index at its numeric place, another name last. *)
Definition own_create (l : list (RecordKey * DecodedRecord)) (k : RecordKey)
    (v : DecodedRecord) : list (RecordKey * DecodedRecord) :=
  match array_index k with
  | Some n => insert_index n k v l
  | None => l ++ [(k, v)]
  end.

Definition obj_lookup (o : Records) (k : RecordKey) : option DecodedRecord :=
  own_lookup (properties o) k.

(** [o[k] = v] where [v] is [null] or a string.  An own property is
    overwritten.  Otherwise, while the prototype is [Object.prototype], the
    name [__proto__] finds the setter of the prototype, which clears the
    prototype for [null], ignores a string, and creates no property.  Any
    other name, and [__proto__] once the prototype is cleared, creates an
    own property (the methods of [Object.prototype] are writable, so they
    are shadowed). *)
Definition obj_set (o : Records) (k : RecordKey) (v : DecodedRecord) : Records :=
  match own_lookup (properties o) k with
  | Some _ =>
      {| has_prototype := has_prototype o;
         properties := own_update (properties o) k v |}
  | None =>
      if (has_prototype o && String.eqb k "__proto__")%bool then
        match v with
        | None => {| has_prototype := false; properties := properties o |}
        | Some _ => o
        end
      else
        {| has_prototype := has_prototype o;
           properties := own_create (properties o) k v |}
  end.

(** What [Object.prototype] gives for a name the object does not own. *)
Definition inherited (k : RecordKey) : value :=
  if String.eqb k "__proto__" then VObjectPrototype
  else if existsb (String.eqb k) prototype_methods then VFunction k
  else VUndefined.

(** [o[k]] as an expression: the own property, or else what the prototype
    gives, or else [undefined]. *)
Definition obj_get (o : Records) (k : RecordKey) : value :=
  match obj_lookup o k with
  | Some r => value_of_record r
  | None => if has_prototype o then inherited k else VUndefined
  end.

(** [Object.keys(o)]. *)
Definition obj_keys (o : Records) : list RecordKey := map fst (properties o).

(** The property name used by [o[x]]: an array converts through
    [Array.prototype.join], a missing array element is ["undefined"]. *)
Definition key_of_element (queriedKey : option RecordKey) : RecordKey :=
  match queriedKey with
  | Some k => k
  | None => "undefined"
  end.

Definition key_of_argument (key : RecordKeyOrKeys) : RecordKey :=
  match key with
  | Key k => k
  | Keys ks => String.concat "," ks
  end.

(** ** Exceptions, parameters and collaborators *)

(** What the contract ABIs stand for is not needed, only which one is used. *)
Inductive Abi := textResolverAbi | universalResolverResolveArrayAbi.

(** A thrown value: [new Error(message)], or an error of the collaborators
    ([readContract], the ABI codec, the chain registry, the name encoder). *)
Inductive exn (BaseError : Type) :=
| Error (message : string)
| Raised (e : BaseError).
Arguments Error {BaseError} message.
Arguments Raised {BaseError} e.

Definition result (BaseError A : Type) : Type := (exn BaseError + A)%type.

Record Client (Chain : Type) := { chain : option Chain }.
Arguments chain {Chain} c.

Record ReadContractParameters := {
  address : Address;
  abi : Abi;
  functionName : string;
  args : Hex * list Hex;
  blockNumber : option N;
  blockTag : option string
}.

Record GetEnsTextParameters := {
  param_blockNumber : option N;
  param_blockTag : option string;
  name : string;
  key : RecordKeyOrKeys;
  universalResolverAddress : option Address
}.


(** The functions [getEnsText] imports from other modules, and the answer
    of the network to a read-only contract call. *)
Class Collaborators (BaseError Chain : Type) := {
  getChainContractAddress : option N -> Chain -> string -> result BaseError Address;
  packetToBytes : string -> result BaseError (list byte);
  encodeFunctionData : Abi -> string -> Hex * RecordKey -> Hex;
  decodeFunctionResult : Abi -> string -> Hex -> result BaseError string;
  isNullUniversalResolverError : exn BaseError -> string -> bool;
  readContract_response :
    Client Chain -> ReadContractParameters -> result BaseError (list Hex * Address)
}.

(** [toHex] of a byte array: ["0x"] and two hexadecimal digits a byte. *)
Definition toHex (bytes : list byte) : Hex := bytesToHex bytes.

(** ** The monad of [getEnsText] *)

(** A computation runs on the log of the contract calls issued so far and
    either throws or returns. *)
Definition Log := list ReadContractParameters.

Section Monad.
Context {BaseError : Type}.

Definition M (A : Type) : Type := Log -> Log * result BaseError A.

Definition ret {A} (a : A) : M A := fun log => (log, inr a).
Definition throw {A} (e : exn BaseError) : M A := fun log => (log, inl e).
Definition bind {A B} (m : M A) (f : A -> M B) : M B :=
  fun log =>
    match m log with
    | (log', inl e) => (log', inl e)
    | (log', inr a) => f a log'
    end.
Definition lift {A} (r : result BaseError A) : M A := fun log => (log, r).
Definition try_catch {A} (m : M A) (handler : exn BaseError -> M A) : M A :=
  fun log =>
    match m log with
    | (log', inl e) => handler e log'
    | (log', inr a) => (log', inr a)
    end.

End Monad.
Arguments M BaseError A : clear implicits.

Notation "x <- m ;; k" := (bind m (fun x => k))
  (at level 61, m at next level, right associativity).

(** ** [getEnsText] *)

Section GetEnsText.
Context {BaseError Chain : Type} `{Collaborators BaseError Chain}.

Definition readContract (client : Client Chain) (p : ReadContractParameters)
  : M BaseError (list Hex * Address) :=
  fun log => (log ++ [p], readContract_response client p).

(** The body of the loop for one sub-result: the record stored for it. *)
Definition decodeRecord (encodedRecord : Hex) : result BaseError DecodedRecord :=
  if String.eqb encodedRecord "0x" then inr None
  else match decodeFunctionResult textResolverAbi "text" encodedRecord with
       | inl e => inl e
       | inr record => inr (if String.eqb record "" then None else Some record)
       end.

(** [for (let i = 0; i < res[0].length; i++)], from index [i] on, where
    [results] are the elements [res[0][i]], [res[0][i + 1]], ... *)
Fixpoint decodeRecords (keys : list RecordKey) (results : list Hex) (i : nat)
    (decodedRecords : Records) : result BaseError Records :=
  match results with
  | [] => inr decodedRecords
  | encodedRecord :: rest =>
      let queriedKey := key_of_element (nth_error keys i) in
      match decodeRecord encodedRecord with
      | inl e => inl e
      | inr record =>
          decodeRecords keys rest (S i) (obj_set decodedRecords queriedKey record)
      end
  end.

(** Every sub-result of [results] decodes, to the record at its place in [ds]. *)
Definition decoded_as (results : list Hex) (ds : list DecodedRecord) : Prop :=
  Forall2 (fun r d => decodeRecord r = inr d) results ds.

(** [keys.map((k) => encodeFunctionData({ ..., args: [namehash(name), k] }))]. *)
Definition subcalls (name : string) (keys : list RecordKey) : list Hex :=
  map (fun k => encodeFunctionData textResolverAbi "text"
                  (bytesToHex (namehash name), k)) keys.

Definition resolve_call (a : Address) (packet : list byte)
    (p : GetEnsTextParameters) (keys : list RecordKey) : ReadContractParameters :=
  {| address := a;
     abi := universalResolverResolveArrayAbi;
     functionName := "resolve";
     args := (toHex packet, subcalls (name p) keys);
     blockNumber := param_blockNumber p;
     blockTag := param_blockTag p |}.

(** [Array.isArray(key) ? key : [key]]. *)
Definition keys_of (key : RecordKeyOrKeys) : list RecordKey :=
  match key with
  | Keys ks => ks
  | Key k => [k]
  end.

Definition chain_not_configured : exn BaseError :=
  Error "client chain not configured. universalResolverAddress is required.".

(** Lines 115 to 127: the address given, or else the one of the chain. *)
Definition resolverAddress (client : Client Chain) (p : GetEnsTextParameters)
  : result BaseError Address :=
  let of_chain :=
    match chain client with
    | None => inl chain_not_configured
    | Some c =>
        getChainContractAddress (param_blockNumber p) c "ensUniversalResolver"
    end in
  match universalResolverAddress p with
  | None => of_chain
  | Some a => if String.eqb a "" then of_chain else inr a
  end.

Definition getEnsText (client : Client Chain) (p : GetEnsTextParameters)
  : M BaseError value :=
  a <- lift (resolverAddress client p) ;;
  let keys := keys_of (key p) in
  try_catch
    (packet <- lift (packetToBytes (name p)) ;;
     res <- readContract client (resolve_call a packet p keys) ;;
     decodedRecords <- lift (decodeRecords keys (fst res) 0 empty_object) ;;
     ret (if Nat.eqb (List.length keys) 1
          then obj_get decodedRecords (key_of_argument (key p))
          else VRecords decodedRecords))
    (fun err =>
       if isNullUniversalResolverError err "resolve" then ret VNull
       else throw err).

End GetEnsText.


(** ** Reference functions for the statements *)

(** The keys of a request without repetition, each at its first place. *)
Fixpoint uniq (ks : list RecordKey) : list RecordKey :=
  match ks with
  | [] => []
  | k :: rest => k :: filter (fun k' => negb (String.eqb k' k)) (uniq rest)
  end.

Definition mem (k : RecordKey) (ks : list RecordKey) : bool :=
  existsb (String.eqb k) ks.

(** Assigning a list of (key, record) pairs from left to right. *)
Definition assign (o : Records) (kds : list (RecordKey * DecodedRecord)) : Records :=
  fold_left (fun o kd => obj_set o (fst kd) (snd kd)) kds o.

(** The property names of the loop at the indices [i], ..., [i + n - 1]:
    the key at the index, or ["undefined"] past the end of [keys]. *)
Definition queried (keys : list RecordKey) (i n : nat) : list RecordKey :=
  map (fun j => key_of_element (nth_error keys j)) (seq i n).

(** No property of the object holds the empty string. *)
Definition no_empty_string (o : Records) : Prop :=
  Forall (fun kd => snd kd <> Some "") (properties o).

(** ** A concrete world *)

Module Example.

(** Length-prefixed labels closed by the empty label. *)
Definition packet (name : string) : result string (list byte) :=
  if existsb (fun l => Nat.ltb 255 (String.length l)) (split_labels name)
  then inl (Raised "EncodingError")
  else inr (flat_map (fun l => Keccak.byte_of_N (N.of_nat (String.length l))
                                 :: stringToBytes l) (split_labels name)
            ++ [x00]).

(** A toy codec: a payload is ["0x00"] followed by the text. *)
Definition decode (data : Hex) : result string string :=
  if String.prefix "0x00" data
  then inr (String.substring 4 (String.length data - 4) data)
  else inl (Raised "AbiDecodingDataSizeTooSmallError").

Definition encode (functionName : string) (args : Hex * RecordKey) : Hex :=
  String.concat "" [functionName; "("; fst args; ","; snd args; ")"].

Definition isNull (err : exn string) (callType : string) : bool :=
  match err with
  | Raised e => String.eqb e "ResolverNotFound" && String.eqb callType "resolve"
  | Error _ => false
  end.

Definition world (response : result string (list Hex * Address))
  : Collaborators string string :=
  {| getChainContractAddress :=
       fun _ _ _ => inr "0xce01f8eee7E479C928F8919abD53E553a36CeF67";
     packetToBytes := packet;
     encodeFunctionData := fun _ => encode;
     decodeFunctionResult := fun _ _ => decode;
     isNullUniversalResolverError := isNull;
     readContract_response := fun _ _ => response |}.

Definition mainnet : Client string := {| chain := Some "mainnet" |}.
Definition no_chain : Client string := {| chain := None |}.

Definition request (name : string) (key : RecordKeyOrKeys) : GetEnsTextParameters :=
  {| param_blockNumber := None;
     param_blockTag := None;
     name := name;
     key := key;
     universalResolverAddress := None |}.

Definition resolver : Address := "0x231b0Ee14048e9dCcD1d247744d114a4EB5E8E63".
Definition universalResolver : Address := "0xce01f8eee7E479C928F8919abD53E553a36CeF67".

(** The packet of ["alice.eth"]. *)
Definition alice_eth : list byte :=
  x05 :: stringToBytes "alice" ++ x03 :: stringToBytes "eth" ++ [x00].

(** Worlds in which the resolver of the name answers, or is missing, or
    the transport fails. *)
Definition answers (results : list Hex) : Collaborators string string :=
  world (inr (results, resolver)).
Definition no_resolver : Collaborators string string :=
  world (inl (Raised "ResolverNotFound")).
Definition transport_down : Collaborators string string :=
  world (inl (Raised "HttpRequestError")).

(** A chain whose registry has no universal resolver. *)
Definition unsupported_chain : Collaborators string string :=
  {| getChainContractAddress :=
       fun _ _ _ => inl (Raised "ChainDoesNotSupportContract");
     packetToBytes := packet;
     encodeFunctionData := fun _ => encode;
     decodeFunctionResult := fun _ _ => decode;
     isNullUniversalResolverError := isNull;
     readContract_response := fun _ _ => inr ([], resolver) |}.

(** A request that names the universal resolver itself, at a block. *)
Definition request_at (a : Address) (name : string) (key : RecordKeyOrKeys)
  : GetEnsTextParameters :=
  {| param_blockNumber := Some 19000000%N;
     param_blockTag := None;
     name := name;
     key := key;
     universalResolverAddress := Some a |}.

Definition custom_resolver : Address := "0x8cab227b1162f03b8338331adaad7aadc83b895e".

(** A name whose first label has 256 bytes. *)
Definition long_name : string :=
  String.append (String.concat "" (repeat "a" 256)) ".eth".

End Example.


(** ** Properties of the record object *)

Lemma mem_In (k : RecordKey) (ks : list RecordKey) : mem k ks = true <-> In k ks.
Proof.
  unfold mem. rewrite existsb_exists. split.
  - intros [x [Hin Heq]]. apply String.eqb_eq in Heq. now subst.
  - intros Hin. exists k. split; [assumption | apply String.eqb_refl].
Qed.

Lemma mem_app (k : RecordKey) (l1 l2 : list RecordKey) :
  mem k (l1 ++ l2) = mem k l1 || mem k l2.
Proof. unfold mem. apply existsb_app. Qed.

Lemma own_lookup_None (l : list (RecordKey * DecodedRecord)) (k : RecordKey) :
  own_lookup l k = None <-> ~ In k (map fst l).
Proof.
  induction l as [|[k' v'] l IH]; simpl.
  - tauto.
  - destruct (String.eqb_spec k' k) as [-> | Hne].
    + split; [discriminate | tauto].
    + rewrite IH. tauto.
Qed.

Lemma own_lookup_In (l : list (RecordKey * DecodedRecord)) (k : RecordKey)
    (v : DecodedRecord) :
  own_lookup l k = Some v -> In (k, v) l.
Proof.
  induction l as [|[k' v'] l IH]; simpl; [discriminate|].
  destruct (String.eqb_spec k' k) as [-> | Hne].
  - intros Heq. injection Heq as ->. now left.
  - intros Hfind. right. now apply IH.
Qed.

Lemma own_lookup_update_same (l : list (RecordKey * DecodedRecord))
    (k : RecordKey) (v v0 : DecodedRecord) :
  own_lookup l k = Some v0 -> own_lookup (own_update l k v) k = Some v.
Proof.
  induction l as [|[k' v'] l IH]; simpl; [discriminate|].
  destruct (String.eqb k' k) eqn:E; simpl; rewrite E; [reflexivity | exact IH].
Qed.

Lemma own_lookup_update_other (l : list (RecordKey * DecodedRecord))
    (k k0 : RecordKey) (v : DecodedRecord) :
  k <> k0 -> own_lookup (own_update l k v) k0 = own_lookup l k0.
Proof.
  intros Hne. induction l as [|[k' v'] l IH]; simpl; [reflexivity|].
  destruct (String.eqb_spec k' k) as [-> | Hk]; simpl.
  - apply String.eqb_neq in Hne. now rewrite Hne.
  - now rewrite IH.
Qed.

Lemma map_fst_own_update (l : list (RecordKey * DecodedRecord)) (k : RecordKey)
    (v : DecodedRecord) :
  map fst (own_update l k v) = map fst l.
Proof.
  induction l as [|[k' v'] l IH]; simpl; [reflexivity|].
  destruct (String.eqb k' k); simpl; [reflexivity | now rewrite IH].
Qed.

Lemma own_lookup_insert_index_other (n : N) (k k0 : RecordKey)
    (v : DecodedRecord) (l : list (RecordKey * DecodedRecord)) :
  k <> k0 -> own_lookup (insert_index n k v l) k0 = own_lookup l k0.
Proof.
  intros Hne. apply String.eqb_neq in Hne.
  induction l as [|[k' v'] l IH]; simpl.
  - now rewrite Hne.
  - destruct (array_index k') as [n'|]; [destruct (N.ltb n' n)|]; simpl;
      rewrite ?Hne; try reflexivity.
    now rewrite IH.
Qed.

Lemma own_lookup_insert_index_same (n : N) (k : RecordKey) (v : DecodedRecord)
    (l : list (RecordKey * DecodedRecord)) :
  own_lookup l k = None -> own_lookup (insert_index n k v l) k = Some v.
Proof.
  induction l as [|[k' v'] l IH]; simpl; intros Hnone.
  - now rewrite String.eqb_refl.
  - destruct (String.eqb k' k) eqn:E; [discriminate|].
    destruct (array_index k') as [n'|]; [destruct (N.ltb n' n)|]; simpl;
      rewrite ?E, ?String.eqb_refl; try reflexivity.
    now apply IH.
Qed.

Lemma In_map_fst_insert_index (n : N) (k k0 : RecordKey) (v : DecodedRecord)
    (l : list (RecordKey * DecodedRecord)) :
  In k0 (map fst (insert_index n k v l)) <-> k0 = k \/ In k0 (map fst l).
Proof.
  induction l as [|[k' v'] l IH]; simpl.
  - intuition.
  - destruct (array_index k') as [n'|]; [destruct (N.ltb n' n)|]; simpl;
      try rewrite IH; intuition.
Qed.

Lemma own_lookup_create_other (l : list (RecordKey * DecodedRecord))
    (k k0 : RecordKey) (v : DecodedRecord) :
  k <> k0 -> own_lookup (own_create l k v) k0 = own_lookup l k0.
Proof.
  intros Hne. unfold own_create. destruct (array_index k) as [n|].
  - now apply own_lookup_insert_index_other.
  - induction l as [|[k' v'] l IH]; simpl.
    + apply String.eqb_neq in Hne. now rewrite Hne.
    + now rewrite IH.
Qed.

Lemma own_lookup_create_same (l : list (RecordKey * DecodedRecord))
    (k : RecordKey) (v : DecodedRecord) :
  own_lookup l k = None -> own_lookup (own_create l k v) k = Some v.
Proof.
  intros Hnone. unfold own_create. destruct (array_index k) as [n|].
  - now apply own_lookup_insert_index_same.
  - induction l as [|[k' v'] l IH]; simpl in *.
    + now rewrite String.eqb_refl.
    + destruct (String.eqb k' k); [discriminate | now apply IH].
Qed.

Lemma In_map_fst_own_create (l : list (RecordKey * DecodedRecord))
    (k k0 : RecordKey) (v : DecodedRecord) :
  In k0 (map fst (own_create l k v)) <-> k0 = k \/ In k0 (map fst l).
Proof.
  unfold own_create. destruct (array_index k) as [n|].
  - apply In_map_fst_insert_index.
  - rewrite map_app, in_app_iff. simpl. intuition.
Qed.

Lemma obj_lookup_set_same (o : Records) (k : RecordKey) (v : DecodedRecord) :
  k <> "__proto__" -> obj_lookup (obj_set o k v) k = Some v.
Proof.
  intros Hk. unfold obj_lookup, obj_set.
  destruct (own_lookup (properties o) k) as [v0|] eqn:Hown.
  - cbn [properties]. now apply (own_lookup_update_same _ _ _ v0).
  - apply String.eqb_neq in Hk. rewrite Hk, andb_false_r. cbn [properties].
    now apply own_lookup_create_same.
Qed.

Lemma obj_lookup_set_other (o : Records) (k k0 : RecordKey) (v : DecodedRecord) :
  k <> k0 -> obj_lookup (obj_set o k v) k0 = obj_lookup o k0.
Proof.
  intros Hne. unfold obj_lookup, obj_set.
  destruct (own_lookup (properties o) k) as [v0|] eqn:Hown.
  - cbn [properties]. now apply own_lookup_update_other.
  - destruct (has_prototype o && String.eqb k "__proto__")%bool.
    + now destruct v.
    + cbn [properties]. now apply own_lookup_create_other.
Qed.

Lemma In_obj_keys_set (o : Records) (k k0 : RecordKey) (v : DecodedRecord) :
  k0 <> "__proto__" ->
  In k0 (obj_keys (obj_set o k v)) <-> k0 = k \/ In k0 (obj_keys o).
Proof.
  intros Hk0. unfold obj_keys, obj_set.
  destruct (own_lookup (properties o) k) as [v0|] eqn:Hown.
  - cbn [properties]. rewrite map_fst_own_update.
    apply own_lookup_In, (in_map fst) in Hown. cbn [fst] in Hown.
    split; [tauto | intros [-> | Hin]; assumption].
  - destruct (has_prototype o && String.eqb k "__proto__")%bool eqn:Hsetter.
    + apply andb_true_iff in Hsetter as [_ Hk]. apply String.eqb_eq in Hk.
      subst k. destruct v; cbn [properties]; split; try tauto;
        intros [Hc | Hin]; congruence.
    + cbn [properties]. apply In_map_fst_own_create.
Qed.

Lemma In_obj_keys_set_inv (o : Records) (k k0 : RecordKey) (v : DecodedRecord) :
  In k0 (obj_keys (obj_set o k v)) -> k0 = k \/ In k0 (obj_keys o).
Proof.
  unfold obj_keys, obj_set.
  destruct (own_lookup (properties o) k) as [v0|] eqn:Hown.
  - cbn [properties]. rewrite map_fst_own_update. tauto.
  - destruct (has_prototype o && String.eqb k "__proto__")%bool.
    + destruct v; cbn [properties]; tauto.
    + cbn [properties]. apply In_map_fst_own_create.
Qed.




(** An assignment to a name that is neither [__proto__] nor an array
    index keeps the order of the properties and puts a new one last. *)
Lemma obj_keys_set (o : Records) (k : RecordKey) (v : DecodedRecord) :
  k <> "__proto__" ->
  array_index k = None ->
  obj_keys (obj_set o k v) =
  if mem k (obj_keys o) then obj_keys o else obj_keys o ++ [k].
Proof.
  intros Hk Hindex. unfold obj_keys, obj_set.
  destruct (own_lookup (properties o) k) as [v0|] eqn:Hown.
  - cbn [properties]. rewrite map_fst_own_update.
    apply own_lookup_In, (in_map fst) in Hown. cbn [fst] in Hown.
    apply mem_In in Hown. now rewrite Hown.
  - apply String.eqb_neq in Hk. rewrite Hk, andb_false_r. cbn [properties].
    apply own_lookup_None in Hown.
    destruct (mem k (map fst (properties o))) eqn:Hmem.
    + apply mem_In in Hmem. contradiction.
    + unfold own_create. rewrite Hindex, map_app. reflexivity.
Qed.

Lemma assign_cons (o : Records) (kd : RecordKey * DecodedRecord)
    (kds : list (RecordKey * DecodedRecord)) :
  assign o (kd :: kds) = assign (obj_set o (fst kd) (snd kd)) kds.
Proof. reflexivity. Qed.

Lemma filter_filter {A} (f g : A -> bool) (l : list A) :
  filter f (filter g l) = filter (fun x => g x && f x) l.
Proof.
  induction l as [|x l IH]; simpl; [reflexivity|].
  destruct (g x); simpl; [destruct (f x)|]; now rewrite IH.
Qed.

(** After a run of assignments to names that are neither [__proto__] nor
    array indices, the new properties stand in the order of the first
    occurrences of their names. *)
Lemma obj_keys_assign (kds : list (RecordKey * DecodedRecord)) :
  ~ In "__proto__" (map fst kds) ->
  Forall (fun k => array_index k = None) (map fst kds) ->
  forall o,
    obj_keys (assign o kds) =
    obj_keys o ++ filter (fun k => negb (mem k (obj_keys o))) (uniq (map fst kds)).
Proof.
  induction kds as [|[k d] kds IH]; intros Hproto Hindex o.
  - simpl. now rewrite app_nil_r.
  - cbn [map fst] in Hproto, Hindex. inversion Hindex as [|? ? Hk Hrest]. subst.
    rewrite assign_cons, IH by (simpl in Hproto; tauto). cbn [fst snd].
    rewrite obj_keys_set by (simpl in Hproto; intuition congruence).
    cbn [fst snd map uniq filter].
    rewrite filter_filter.
    destruct (mem k (obj_keys o)) eqn:Hmem; cbn [negb].
    + f_equal. apply filter_ext_in. intros x _.
      destruct (String.eqb x k) eqn:E; [|reflexivity].
      apply String.eqb_eq in E. subst x. now rewrite Hmem.
    + rewrite <- app_assoc. cbn [app]. do 2 f_equal.
      apply filter_ext. intros x. rewrite mem_app.
      unfold mem at 2. cbn [existsb]. rewrite orb_false_r.
      now rewrite negb_orb, andb_comm.
Qed.

Lemma In_obj_keys_assign (kds : list (RecordKey * DecodedRecord)) :
  forall o k,
    k <> "__proto__" ->
    In k (obj_keys (assign o kds)) <-> In k (obj_keys o) \/ In k (map fst kds).
Proof.
  induction kds as [|[k0 d0] kds IH]; intros o k Hk.
  - simpl. tauto.
  - rewrite assign_cons, IH by assumption. cbn [fst snd map].
    rewrite In_obj_keys_set by assumption.
    simpl. intuition.
Qed.

Lemma In_obj_keys_assign_inv (kds : list (RecordKey * DecodedRecord)) :
  forall o k,
    In k (obj_keys (assign o kds)) -> In k (obj_keys o) \/ In k (map fst kds).
Proof.
  induction kds as [|[k0 d0] kds IH]; intros o k Hin.
  - simpl. tauto.
  - rewrite assign_cons in Hin. apply IH in Hin as [Hin | Hin].
    + cbn [fst snd] in Hin. apply In_obj_keys_set_inv in Hin. simpl. intuition.
    + simpl. tauto.
Qed.


Lemma uniq_NoDup_id (ks : list RecordKey) : NoDup ks -> uniq ks = ks.
Proof.
  induction 1 as [|k ks Hnotin Hnd IH]; simpl; [reflexivity|].
  rewrite IH. f_equal.
  rewrite forallb_filter_id; [reflexivity|].
  apply forallb_forall. intros x Hx.
  destruct (String.eqb x k) eqn:E; [|reflexivity].
  apply String.eqb_eq in E. now subst.
Qed.

Lemma uniq_In (ks : list RecordKey) (k : RecordKey) : In k (uniq ks) <-> In k ks.
Proof.
  induction ks as [|k0 ks IH]; simpl; [tauto|].
  rewrite filter_In, IH. split.
  - intros [Heq | [Hin _]]; tauto.
  - intros [Heq | Hin]; [now left|].
    destruct (String.eqb k k0) eqn:E.
    + apply String.eqb_eq in E. now left.
    + right. now split.
Qed.

Lemma uniq_NoDup (ks : list RecordKey) : NoDup (uniq ks).
Proof.
  induction ks as [|k ks IH]; simpl; constructor.
  - rewrite filter_In. intros [_ Hk]. now rewrite String.eqb_refl in Hk.
  - now apply NoDup_filter.
Qed.

Lemma obj_lookup_assign_other (kds : list (RecordKey * DecodedRecord)) (k : RecordKey) :
  ~ In k (map fst kds) ->
  forall o, obj_lookup (assign o kds) k = obj_lookup o k.
Proof.
  induction kds as [|[k0 d0] kds IH]; intros Hnotin o; [reflexivity|].
  rewrite assign_cons, IH by (simpl in Hnotin; tauto).
  apply obj_lookup_set_other. simpl in Hnotin. tauto.
Qed.

(** The value of a name other than [__proto__] after a run of
    assignments is the one assigned at its last occurrence. *)
Lemma obj_lookup_assign_last (kds : list (RecordKey * DecodedRecord)) :
  forall o j k d,
    k <> "__proto__" ->
    nth_error kds j = Some (k, d) ->
    (forall j', j < j' -> nth_error (map fst kds) j' <> Some k) ->
    obj_lookup (assign o kds) k = Some d.
Proof.
  induction kds as [|[k0 d0] kds IH]; intros o j k d Hk Hj Hlast.
  - now destruct j.
  - rewrite assign_cons. destruct j as [|j]; simpl in Hj.
    + injection Hj as -> ->. cbn [fst snd].
      rewrite obj_lookup_assign_other; [now apply obj_lookup_set_same|].
      intros Hin. apply In_nth_error in Hin as [j' Hj'].
      apply (Hlast (S j')); [lia | exact Hj'].
    + apply (IH _ j); [exact Hk | exact Hj |].
      intros j' Hlt. apply (Hlast (S j')). lia.
Qed.

Lemma map_fst_combine {A B} (l : list A) :
  forall l' : list B, List.length l' = List.length l -> map fst (combine l l') = l.
Proof.
  induction l as [|x l IH]; intros [|y l'] Hlen; simpl in *;
    try reflexivity; try discriminate.
  f_equal. apply IH. lia.
Qed.

Lemma nth_error_combine {A B} (l : list A) :
  forall (l' : list B) i x y,
    nth_error l i = Some x -> nth_error l' i = Some y ->
    nth_error (combine l l') i = Some (x, y).
Proof.
  induction l as [|x0 l IH]; intros [|y0 l'] [|i] x y Hx Hy; simpl in *;
    try discriminate.
  - congruence.
  - now apply IH.
Qed.

Lemma filter_all {A} (f : A -> bool) (l : list A) :
  (forall x, f x = true) -> filter f l = l.
Proof.
  intros Hf. induction l as [|x l IH]; simpl; [reflexivity|].
  now rewrite Hf, IH.
Qed.

Lemma obj_keys_assign_empty (ks : list RecordKey) (ds : list DecodedRecord) :
  List.length ds = List.length ks ->
  ~ In "__proto__" ks ->
  Forall (fun k => array_index k = None) ks ->
  obj_keys (assign empty_object (combine ks ds)) = uniq ks.
Proof.
  intros Hlen Hproto Hindex.
  rewrite obj_keys_assign; rewrite map_fst_combine by assumption;
    try assumption.
  simpl. now apply filter_all.
Qed.


(** The model agrees with the published digests. *)
Example keccak256_of_empty :
  bytesToHex (Keccak.keccak256 []) =
  "0xc5d2460186f7233c927e7db2dcc703c0e500b653ca82273b7bfad8045d85a470".
Proof. vm_compute. reflexivity. Qed.

Example namehash_of_eth :
  bytesToHex (namehash "eth") =
  "0x93cdeb708b7545dc668eb9280176169d1c33cfd8ed6f04690a0bcc88a93fc4ae".
Proof. vm_compute. reflexivity. Qed.







(** ** Properties of [getEnsText] *)

Section Properties.
Context {BaseError Chain : Type} `{Collaborators BaseError Chain}.

Lemma decodeRecords_in_range (results : list Hex) :
  forall ds pre rest o,
    decoded_as results ds ->
    List.length results <= List.length rest ->
    decodeRecords (pre ++ rest) results (List.length pre) o =
    inr (assign o (combine rest ds)).
Proof.
  induction results as [|r results IH]; intros ds pre rest o Hds Hlen.
  - inversion Hds. subst. simpl. now destruct rest.
  - inversion Hds as [|r' d results' ds' Hr Hrest]. subst.
    destruct rest as [|k rest]; [simpl in Hlen; lia|].
    cbn [decodeRecords]. rewrite Hr.
    rewrite nth_error_app2, Nat.sub_diag by lia. cbn [nth_error key_of_element combine].
    rewrite assign_cons. cbn [fst snd].
    replace (pre ++ k :: rest) with ((pre ++ [k]) ++ rest)
      by (now rewrite <- app_assoc).
    replace (S (List.length pre)) with (List.length (pre ++ [k]))
      by (rewrite length_app; simpl; lia).
    apply IH; [assumption | simpl in Hlen; lia].
Qed.

Lemma decodeRecords_all (ks : list RecordKey) (results : list Hex)
    (ds : list DecodedRecord) :
  decoded_as results ds ->
  List.length results = List.length ks ->
  decodeRecords ks results 0 empty_object =
  inr (assign empty_object (combine ks ds)).
Proof.
  intros Hds Hlen.
  apply (decodeRecords_in_range results ds [] ks empty_object);
    [assumption | lia].
Qed.

Lemma decodeRecords_malformed (pre : list Hex) :
  forall ds keys r post i o e,
    decoded_as pre ds ->
    decodeRecord r = inl e ->
    decodeRecords keys (pre ++ r :: post) i o = inl e.
Proof.
  induction pre as [|r0 pre IH]; intros ds keys r post i o e Hds Hr.
  - simpl. now rewrite Hr.
  - inversion Hds as [|r' d pre' ds' Hr0 Hpre]. subst.
    cbn [app decodeRecords]. rewrite Hr0. now apply (IH ds').
Qed.

Lemma decoded_as_length (results : list Hex) (ds : list DecodedRecord) :
  decoded_as results ds -> List.length ds = List.length results.
Proof. intros Hds. symmetry. exact (Forall2_length Hds). Qed.

(** The three ways in which a request that reaches the network ends. *)
Lemma getEnsText_resolved (client : Client Chain) (p : GetEnsTextParameters)
    (a : Address) (packet : list byte) (res : list Hex * Address) (o : Records)
    (log : Log) :
  resolverAddress client p = inr a ->
  packetToBytes (name p) = inr packet ->
  readContract_response client (resolve_call a packet p (keys_of (key p))) = inr res ->
  decodeRecords (keys_of (key p)) (fst res) 0 empty_object = inr o ->
  getEnsText client p log =
  (log ++ [resolve_call a packet p (keys_of (key p))],
   inr (if Nat.eqb (List.length (keys_of (key p))) 1
        then obj_get o (key_of_argument (key p))
        else VRecords o)).
Proof.
  intros Ha Hp Hres Hdec.
  unfold getEnsText, try_catch, bind, lift, readContract, ret.
  now rewrite Ha, Hp, Hres, Hdec.
Qed.

Lemma getEnsText_call_failed (client : Client Chain) (p : GetEnsTextParameters)
    (a : Address) (packet : list byte) (e : exn BaseError) (log : Log) :
  resolverAddress client p = inr a ->
  packetToBytes (name p) = inr packet ->
  readContract_response client (resolve_call a packet p (keys_of (key p))) = inl e ->
  getEnsText client p log =
  (log ++ [resolve_call a packet p (keys_of (key p))],
   if isNullUniversalResolverError e "resolve" then inr VNull else inl e).
Proof.
  intros Ha Hp Hres.
  unfold getEnsText, try_catch, bind, lift, readContract, ret, throw.
  rewrite Ha, Hp, Hres.
  now destruct (isNullUniversalResolverError e "resolve").
Qed.

Lemma getEnsText_decode_failed (client : Client Chain) (p : GetEnsTextParameters)
    (a : Address) (packet : list byte) (res : list Hex * Address)
    (e : exn BaseError) (log : Log) :
  resolverAddress client p = inr a ->
  packetToBytes (name p) = inr packet ->
  readContract_response client (resolve_call a packet p (keys_of (key p))) = inr res ->
  decodeRecords (keys_of (key p)) (fst res) 0 empty_object = inl e ->
  getEnsText client p log =
  (log ++ [resolve_call a packet p (keys_of (key p))],
   if isNullUniversalResolverError e "resolve" then inr VNull else inl e).
Proof.
  intros Ha Hp Hres Hdec.
  unfold getEnsText, try_catch, bind, lift, readContract, ret, throw.
  rewrite Ha, Hp, Hres, Hdec.
  now destruct (isNullUniversalResolverError e "resolve").
Qed.



(** C2: when the aggregating [resolve] call fails with an error that
    [isNullUniversalResolverError] recognises, [getEnsText] returns [null]
    and does not throw, for a single key and for an array of keys alike. *)
Theorem getEnsText_null_resolver_returns_null (client : Client Chain)
    (p : GetEnsTextParameters) (a : Address) (packet : list byte)
    (e : exn BaseError) (log : Log) :
  resolverAddress client p = inr a ->
  packetToBytes (name p) = inr packet ->
  readContract_response client (resolve_call a packet p (keys_of (key p))) = inl e ->
  isNullUniversalResolverError e "resolve" = true ->
  getEnsText client p log =
  (log ++ [resolve_call a packet p (keys_of (key p))], inr VNull).
Proof.
  intros Ha Hp Hres Hnull.
  rewrite (getEnsText_call_failed client p a packet e log Ha Hp Hres).
  now rewrite Hnull.
Qed.

(** C3: when the aggregating call fails with any other error, [getEnsText]
    throws that very error after the one call it has made: the error is not
    turned into [null], not wrapped, and the call is not repeated. *)
Theorem getEnsText_other_failure_rethrown (client : Client Chain)
    (p : GetEnsTextParameters) (a : Address) (packet : list byte)
    (e : exn BaseError) (log : Log) :
  resolverAddress client p = inr a ->
  packetToBytes (name p) = inr packet ->
  readContract_response client (resolve_call a packet p (keys_of (key p))) = inl e ->
  isNullUniversalResolverError e "resolve" = false ->
  getEnsText client p log =
  (log ++ [resolve_call a packet p (keys_of (key p))], inl e).
Proof.
  intros Ha Hp Hres Hnull.
  rewrite (getEnsText_call_failed client p a packet e log Ha Hp Hres).
  now rewrite Hnull.
Qed.

(** C6: without an explicit resolver address and without a chain on the
    client, [getEnsText] throws the configuration error and the log of
    contract calls is left as it was: no call is issued. *)
Theorem getEnsText_chain_not_configured (client : Client Chain)
    (p : GetEnsTextParameters) (log : Log) :
  universalResolverAddress p = None ->
  chain client = None ->
  getEnsText client p log = (log, inl chain_not_configured).
Proof.
  intros Haddr Hchain.
  unfold getEnsText, bind, lift, resolverAddress.
  now rewrite Haddr, Hchain.
Qed.

(** C7: a sub-result that is not the sentinel and that the codec rejects
    gives an error for its key, not [null]; [getEnsText] throws that error,
    provided [isNullUniversalResolverError] does not take a decoding error
    for the missing-resolver condition. *)
Theorem getEnsText_malformed_record_throws (client : Client Chain)
    (p : GetEnsTextParameters) (a : Address) (packet : list byte)
    (pre post : list Hex) (r : Hex) (resolver : Address)
    (ds : list DecodedRecord) (e : exn BaseError) (log : Log) :
  resolverAddress client p = inr a ->
  packetToBytes (name p) = inr packet ->
  readContract_response client (resolve_call a packet p (keys_of (key p))) =
    inr (pre ++ r :: post, resolver) ->
  decoded_as pre ds ->
  r <> "0x" ->
  decodeFunctionResult textResolverAbi "text" r = inl e ->
  isNullUniversalResolverError e "resolve" = false ->
  decodeRecord r = inl e /\
  getEnsText client p log =
  (log ++ [resolve_call a packet p (keys_of (key p))], inl e).
Proof.
  intros Ha Hp Hres Hpre Hr Hdec Hnull.
  assert (Hrec : decodeRecord r = inl e).
  { unfold decodeRecord. apply String.eqb_neq in Hr. now rewrite Hr, Hdec. }
  split; [exact Hrec|].
  rewrite (getEnsText_decode_failed client p a packet _ e log Ha Hp Hres).
  - now rewrite Hnull.
  - apply (decodeRecords_malformed pre ds); assumption.
Qed.

Lemma getEnsText_call_issued (client : Client Chain) (p : GetEnsTextParameters)
    (a : Address) (packet : list byte) (log : Log) :
  resolverAddress client p = inr a ->
  packetToBytes (name p) = inr packet ->
  fst (getEnsText client p log) =
  log ++ [resolve_call a packet p (keys_of (key p))].
Proof.
  intros Ha Hp.
  destruct (readContract_response client
              (resolve_call a packet p (keys_of (key p)))) as [e | res] eqn:Hres.
  - now rewrite (getEnsText_call_failed client p a packet e log Ha Hp Hres).
  - destruct (decodeRecords (keys_of (key p)) (fst res) 0 empty_object)
      as [e | o] eqn:Hdec.
    + now rewrite (getEnsText_decode_failed client p a packet res e log Ha Hp Hres Hdec).
    + now rewrite (getEnsText_resolved client p a packet res o log Ha Hp Hres Hdec).
Qed.

(** C4: for several keys, when every sub-result decodes, [getEnsText]
    returns a mapping whose properties are requested keys and hold every
    requested key other than [__proto__]; the value of such a key is the
    record decoded from the sub-result at the (last) position of that key,
    whatever the other sub-results are.  When no key is [__proto__] or an
    array index, the properties stand in the order of the request (a
    repeated key at its first place). *)
Theorem getEnsText_mapping_of_requested_keys (client : Client Chain)
    (p : GetEnsTextParameters) (ks : list RecordKey) (a : Address)
    (packet : list byte) (results : list Hex) (resolver : Address)
    (ds : list DecodedRecord) (log : Log) :
  key p = Keys ks ->
  List.length ks <> 1 ->
  resolverAddress client p = inr a ->
  packetToBytes (name p) = inr packet ->
  readContract_response client (resolve_call a packet p ks) =
    inr (results, resolver) ->
  List.length results = List.length ks ->
  decoded_as results ds ->
  exists o,
    getEnsText client p log =
      (log ++ [resolve_call a packet p ks], inr (VRecords o)) /\
    (forall k, In k (obj_keys o) -> In k ks) /\
    (forall k, In k ks -> k <> "__proto__" -> In k (obj_keys o)) /\
    (forall i k d,
       k <> "__proto__" ->
       nth_error ks i = Some k ->
       nth_error ds i = Some d ->
       (forall j, i < j -> nth_error ks j <> Some k) ->
       obj_lookup o k = Some d) /\
    (~ In "__proto__" ks ->
     Forall (fun k => array_index k = None) ks ->
     obj_keys o = uniq ks /\ (NoDup ks -> obj_keys o = ks)).
Proof.
  intros Hkey Hmany Ha Hp Hres Hlen Hds.
  pose proof (decoded_as_length results ds Hds) as Hdlen.
  assert (Hfst : map fst (combine ks ds) = ks)
    by (apply map_fst_combine; congruence).
  exists (assign empty_object (combine ks ds)).
  split; [|split; [|split; [|split]]].
  - pose proof (getEnsText_resolved client p a packet (results, resolver)
                  (assign empty_object (combine ks ds)) log Ha Hp) as Hrun.
    rewrite Hkey in Hrun. cbn [keys_of fst] in Hrun.
    rewrite Hrun; [| exact Hres | now apply decodeRecords_all].
    apply Nat.eqb_neq in Hmany. now rewrite Hmany.
  - intros k Hin. apply In_obj_keys_assign_inv in Hin as [[] | Hin].
    now rewrite Hfst in Hin.
  - intros k Hin Hk. apply In_obj_keys_assign; [assumption|].
    right. now rewrite Hfst.
  - intros i k d Hk Hi Hd Hlast.
    apply (obj_lookup_assign_last _ empty_object i); [assumption | |].
    + now apply nth_error_combine.
    + intros j Hlt. rewrite Hfst. now apply Hlast.
  - intros Hproto Hindex.
    assert (Hkeys : obj_keys (assign empty_object (combine ks ds)) = uniq ks)
      by (apply obj_keys_assign_empty; [congruence | assumption | assumption]).
    split; [exact Hkeys|].
    intros Hnd. rewrite Hkeys. now apply uniq_NoDup_id.
Qed.



(** C10: for an empty array of keys the [resolve] call is still issued,
    to the resolver address, with the packet of the name and no sub-call,
    and when it succeeds (with no sub-result) the answer is the empty
    mapping, not [null]. *)
Theorem getEnsText_no_keys (client : Client Chain) (p : GetEnsTextParameters)
    (a : Address) (packet : list byte) (log : Log) :
  key p = Keys [] ->
  resolverAddress client p = inr a ->
  packetToBytes (name p) = inr packet ->
  fst (getEnsText client p log) =
    log ++ [{| address := a;
               abi := universalResolverResolveArrayAbi;
               functionName := "resolve";
               args := (toHex packet, []);
               blockNumber := param_blockNumber p;
               blockTag := param_blockTag p |}] /\
  (forall resolver,
     readContract_response client
       {| address := a;
          abi := universalResolverResolveArrayAbi;
          functionName := "resolve";
          args := (toHex packet, []);
          blockNumber := param_blockNumber p;
          blockTag := param_blockTag p |} = inr ([], resolver) ->
     snd (getEnsText client p log) = inr (VRecords empty_object)).
Proof.
  intros Hkey Ha Hp. split.
  - rewrite (getEnsText_call_issued client p a packet log Ha Hp).
    now rewrite Hkey.
  - intros resolver Hres.
    pose proof (getEnsText_resolved client p a packet ([], resolver)
                  empty_object log Ha Hp) as Hrun.
    rewrite Hkey in Hrun. cbn [keys_of] in Hrun.
    now rewrite Hrun.
Qed.

End Properties.


(** ** The theorems at concrete requests *)

Lemma null_resolver_example :
  @getEnsText _ _ Example.no_resolver Example.mainnet
    (Example.request "alice.eth" (Keys ["email"; "url"])) [] =
  ([@resolve_call _ _ Example.no_resolver Example.universalResolver
      Example.alice_eth (Example.request "alice.eth" (Keys ["email"; "url"]))
      ["email"; "url"]],
   inr VNull).
Proof.
  apply (@getEnsText_null_resolver_returns_null _ _ Example.no_resolver
           Example.mainnet (Example.request "alice.eth" (Keys ["email"; "url"]))
           Example.universalResolver Example.alice_eth
           (Raised "ResolverNotFound") []); reflexivity.
Defined.

Lemma other_failure_example :
  @getEnsText _ _ Example.transport_down Example.mainnet
    (Example.request "alice.eth" (Key "com.twitter")) [] =
  ([@resolve_call _ _ Example.transport_down Example.universalResolver
      Example.alice_eth (Example.request "alice.eth" (Key "com.twitter"))
      ["com.twitter"]],
   inl (Raised "HttpRequestError")).
Proof.
  apply (@getEnsText_other_failure_rethrown _ _ Example.transport_down
           Example.mainnet (Example.request "alice.eth" (Key "com.twitter"))
           Example.universalResolver Example.alice_eth
           (Raised "HttpRequestError") []); reflexivity.
Defined.

Lemma chain_not_configured_example :
  @getEnsText _ _ (Example.answers ["0x00alice_eth"]) Example.no_chain
    (Example.request "alice.eth" (Key "com.twitter")) [] =
  ([], inl chain_not_configured).
Proof.
  apply (@getEnsText_chain_not_configured _ _ (Example.answers ["0x00alice_eth"])
           Example.no_chain (Example.request "alice.eth" (Key "com.twitter")) []);
    reflexivity.
Defined.

Lemma malformed_record_example :
  @decodeRecord _ _ (Example.answers ["0x00a@b.c"; "0xff"]) "0xff" =
    inl (Raised "AbiDecodingDataSizeTooSmallError") /\
  @getEnsText _ _ (Example.answers ["0x00a@b.c"; "0xff"]) Example.mainnet
    (Example.request "alice.eth" (Keys ["email"; "url"])) [] =
  ([@resolve_call _ _ (Example.answers ["0x00a@b.c"; "0xff"])
      Example.universalResolver Example.alice_eth
      (Example.request "alice.eth" (Keys ["email"; "url"])) ["email"; "url"]],
   inl (Raised "AbiDecodingDataSizeTooSmallError")).
Proof.
  apply (@getEnsText_malformed_record_throws _ _
           (Example.answers ["0x00a@b.c"; "0xff"]) Example.mainnet
           (Example.request "alice.eth" (Keys ["email"; "url"]))
           Example.universalResolver Example.alice_eth
           ["0x00a@b.c"] [] "0xff" Example.resolver [Some "a@b.c"]
           (Raised "AbiDecodingDataSizeTooSmallError") []);
    try reflexivity.
  - repeat constructor.
  - discriminate.
Defined.

Lemma email_and_url_example :
  exists o,
    @getEnsText _ _ (Example.answers ["0x00a@b.c"; "0x"]) Example.mainnet
      (Example.request "alice.eth" (Keys ["email"; "url"])) [] =
    ([@resolve_call _ _ (Example.answers ["0x00a@b.c"; "0x"])
        Example.universalResolver Example.alice_eth
        (Example.request "alice.eth" (Keys ["email"; "url"])) ["email"; "url"]],
     inr (VRecords o)) /\
    obj_keys o = ["email"; "url"] /\
    obj_lookup o "email" = Some (Some "a@b.c") /\
    obj_lookup o "url" = Some None.
Proof.
  destruct (@getEnsText_mapping_of_requested_keys _ _
              (Example.answers ["0x00a@b.c"; "0x"]) Example.mainnet
              (Example.request "alice.eth" (Keys ["email"; "url"]))
              ["email"; "url"] Example.universalResolver Example.alice_eth
              ["0x00a@b.c"; "0x"] Example.resolver [Some "a@b.c"; None] [])
    as (o & Hrun & _ & _ & Hvalue & Horder);
    try reflexivity.
  - discriminate.
  - repeat constructor.
  - exists o. split; [exact Hrun|]. split; [|split].
    + destruct Horder as [Hkeys _]; [| | exact Hkeys].
      * simpl. intros [Hc | [Hc | []]]; discriminate Hc.
      * repeat constructor.
    + apply (Hvalue 0); try reflexivity; [discriminate|].
      intros [|[|j]] Hlt; [inversion Hlt | discriminate | destruct j; discriminate].
    + apply (Hvalue 1); try reflexivity; [discriminate|].
      intros [|[|j]] Hlt;
        [inversion Hlt | inversion Hlt as [|? Hle]; inversion Hle
        | destruct j; discriminate].
Defined.


Lemma no_keys_example :
  fst (@getEnsText _ _ (Example.answers []) Example.mainnet
         (Example.request "alice.eth" (Keys [])) []) =
    [{| address := Example.universalResolver;
        abi := universalResolverResolveArrayAbi;
        functionName := "resolve";
        args := ("0x05616c6963650365746800", []);
        blockNumber := None;
        blockTag := None |}] /\
  snd (@getEnsText _ _ (Example.answers []) Example.mainnet
         (Example.request "alice.eth" (Keys [])) []) = inr (VRecords empty_object).
Proof.
  destruct (@getEnsText_no_keys _ _ (Example.answers []) Example.mainnet
              (Example.request "alice.eth" (Keys []))
              Example.universalResolver Example.alice_eth [])
    as (Hlog & Hempty);
    try reflexivity.
  split; [exact Hlog|].
  apply (Hempty Example.resolver). reflexivity.
Defined.




(** ** Requests at which the object is not a plain dictionary *)


(** The key ["1"] is an array index: it is listed before ["url"], against
    the order of the request.  The key [__proto__] with a text is not a
    key of the mapping at all. *)
Lemma requested_keys_counterexample :
  snd (@getEnsText _ _ (Example.answers ["0x00https://alice.example"; "0x00one"])
         Example.mainnet (Example.request "alice.eth" (Keys ["url"; "1"])) []) =
  inr (VRecords {| has_prototype := true;
                   properties := [("1", Some "one");
                                  ("url", Some "https://alice.example")] |}) /\
  obj_keys {| has_prototype := true;
              properties := [("1", Some "one");
                             ("url", Some "https://alice.example")] |} = ["1"; "url"] /\
  snd (@getEnsText _ _ (Example.answers ["0x00a@b.c"; "0x00abc"])
         Example.mainnet
         (Example.request "alice.eth" (Keys ["email"; "__proto__"])) []) =
  inr (VRecords {| has_prototype := true;
                   properties := [("email", Some "a@b.c")] |}).
Proof. repeat split. Qed.



(** ** Further behaviour of [getEnsText] *)

Lemma nth_error_queried (keys : list RecordKey) (n : nat) :
  forall i j,
    j < n ->
    nth_error (queried keys i n) j = Some (key_of_element (nth_error keys (i + j))).
Proof.
  unfold queried. induction n as [|n IH]; intros i j Hj; [lia|].
  cbn [seq map]. destruct j as [|j]; cbn [nth_error].
  - now rewrite Nat.add_0_r.
  - rewrite IH by lia. now rewrite Nat.add_succ_r.
Qed.

Lemma length_queried (keys : list RecordKey) (i n : nat) :
  List.length (queried keys i n) = n.
Proof. unfold queried. now rewrite length_map, length_seq. Qed.

Lemma queried_past_end (keys : list RecordKey) (i n : nat) (k : RecordKey) :
  List.length keys <= i -> In k (queried keys i n) -> k = "undefined".
Proof.
  unfold queried. intros Hi Hin. apply in_map_iff in Hin as [j [<- Hj]].
  apply in_seq in Hj.
  assert (Hnone : nth_error keys j = None) by (apply nth_error_None; lia).
  now rewrite Hnone.
Qed.

Lemma In_map_fst_combine {A B} (l : list A) (l' : list B) (x : A) :
  In x (map fst (combine l l')) -> In x (firstn (List.length l') l).
Proof.
  revert l'. induction l as [|a l IH]; intros [|b l'] Hin; simpl in *;
    try contradiction.
  destruct Hin as [-> | Hin]; [now left | right; now apply IH].
Qed.

Lemma map_fst_combine_firstn {A B} (l : list A) :
  forall l' : list B,
    List.length l' <= List.length l ->
    map fst (combine l l') = firstn (List.length l') l.
Proof.
  induction l as [|a l IH]; intros [|b l'] Hlen; simpl in *;
    try reflexivity; try lia.
  f_equal. apply IH. lia.
Qed.

Lemma obj_lookup_assign_constant (kds : list (RecordKey * DecodedRecord))
    (k : RecordKey) (v : DecodedRecord) :
  k <> "__proto__" ->
  (forall kd, In kd kds -> snd kd = v) ->
  In k (map fst kds) ->
  forall o, obj_lookup (assign o kds) k = Some v.
Proof.
  intros Hk.
  induction kds as [|[k0 d0] kds IH]; intros Hall Hin o; [contradiction|].
  rewrite assign_cons. cbn [fst snd].
  destruct (in_dec string_dec k (map fst kds)) as [Hlater | Hnot].
  - apply IH; [|assumption]. intros kd Hkd. apply Hall. now right.
  - rewrite obj_lookup_assign_other by assumption.
    destruct Hin as [Heq | Hin]; [|contradiction]. cbn [fst] in Heq. subst k0.
    pose proof (Hall (k, d0) (or_introl eq_refl)) as Hv. cbn [snd] in Hv.
    subst d0. now apply obj_lookup_set_same.
Qed.

Lemma obj_lookup_None (o : Records) (k : RecordKey) :
  ~ In k (obj_keys o) -> obj_lookup o k = None.
Proof. unfold obj_lookup, obj_keys. apply own_lookup_None. Qed.

Lemma obj_lookup_In (o : Records) (k : RecordKey) (v : DecodedRecord) :
  obj_lookup o k = Some v -> In (k, v) (properties o).
Proof. unfold obj_lookup. apply own_lookup_In. Qed.

Lemma own_update_no_empty_string (l : list (RecordKey * DecodedRecord))
    (k : RecordKey) (v : DecodedRecord) :
  Forall (fun kd => snd kd <> Some "") l -> v <> Some "" ->
  Forall (fun kd => snd kd <> Some "") (own_update l k v).
Proof.
  intros Hl Hv. induction Hl as [|[k' v'] l Hkd Hl IH]; simpl.
  - constructor.
  - destruct (String.eqb k' k); constructor; assumption.
Qed.

Lemma own_create_no_empty_string (l : list (RecordKey * DecodedRecord))
    (k : RecordKey) (v : DecodedRecord) :
  Forall (fun kd => snd kd <> Some "") l -> v <> Some "" ->
  Forall (fun kd => snd kd <> Some "") (own_create l k v).
Proof.
  intros Hl Hv. unfold own_create. destruct (array_index k) as [n|].
  - induction Hl as [|[k' v'] l Hkd Hl IH]; simpl.
    + now repeat constructor.
    + destruct (array_index k') as [n'|]; [destruct (N.ltb n' n)|];
        repeat constructor; assumption.
  - apply Forall_app. split; [assumption | now repeat constructor].
Qed.

Lemma obj_set_no_empty_string (o : Records) (k : RecordKey) (v : DecodedRecord) :
  no_empty_string o -> v <> Some "" -> no_empty_string (obj_set o k v).
Proof.
  unfold no_empty_string, obj_set. intros Ho Hv.
  destruct (own_lookup (properties o) k) as [v0|].
  - cbn [properties]. now apply own_update_no_empty_string.
  - destruct (has_prototype o && String.eqb k "__proto__")%bool.
    + now destruct v.
    + cbn [properties]. now apply own_create_no_empty_string.
Qed.

Section FurtherProperties.
Context {BaseError Chain : Type} `{Collaborators BaseError Chain}.

(** What the [catch] block makes of a thrown value. *)
Definition caught (e : exn BaseError) : result BaseError value :=
  if isNullUniversalResolverError e "resolve" then inr VNull else inl e.

(** The five ways through [getEnsText], with the result [R] of each. *)
Inductive outcome (client : Client Chain) (p : GetEnsTextParameters) (log : Log)
    (R : Log * result BaseError value) : Prop :=
| no_address e :
    resolverAddress client p = inl e ->
    R = (log, inl e) ->
    outcome client p log R
| no_packet a e :
    resolverAddress client p = inr a ->
    packetToBytes (name p) = inl e ->
    R = (log, caught e) ->
    outcome client p log R
| call_failed a packet e :
    resolverAddress client p = inr a ->
    packetToBytes (name p) = inr packet ->
    readContract_response client (resolve_call a packet p (keys_of (key p))) = inl e ->
    R = (log ++ [resolve_call a packet p (keys_of (key p))], caught e) ->
    outcome client p log R
| decode_failed a packet res e :
    resolverAddress client p = inr a ->
    packetToBytes (name p) = inr packet ->
    readContract_response client (resolve_call a packet p (keys_of (key p))) = inr res ->
    decodeRecords (keys_of (key p)) (fst res) 0 empty_object = inl e ->
    R = (log ++ [resolve_call a packet p (keys_of (key p))], caught e) ->
    outcome client p log R
| resolved a packet res o :
    resolverAddress client p = inr a ->
    packetToBytes (name p) = inr packet ->
    readContract_response client (resolve_call a packet p (keys_of (key p))) = inr res ->
    decodeRecords (keys_of (key p)) (fst res) 0 empty_object = inr o ->
    R = (log ++ [resolve_call a packet p (keys_of (key p))],
         inr (if Nat.eqb (List.length (keys_of (key p))) 1
              then obj_get o (key_of_argument (key p))
              else VRecords o)) ->
    outcome client p log R.

Lemma getEnsText_outcome (client : Client Chain) (p : GetEnsTextParameters)
    (log : Log) :
  outcome client p log (getEnsText client p log).
Proof.
  destruct (resolverAddress client p) as [e | a] eqn:Ha.
  { apply (no_address _ _ _ _ e Ha).
    unfold getEnsText, bind, lift. now rewrite Ha. }
  destruct (packetToBytes (name p)) as [e | packet] eqn:Hp.
  { apply (no_packet _ _ _ _ a e Ha Hp).
    unfold getEnsText, try_catch, bind, lift, ret, throw, caught.
    rewrite Ha, Hp. now destruct (isNullUniversalResolverError e "resolve"). }
  destruct (readContract_response client
              (resolve_call a packet p (keys_of (key p)))) as [e | res] eqn:Hres.
  { apply (call_failed _ _ _ _ a packet e Ha Hp Hres).
    apply (getEnsText_call_failed client p a packet e log Ha Hp Hres). }
  destruct (decodeRecords (keys_of (key p)) (fst res) 0 empty_object)
    as [e | o] eqn:Hdec.
  - apply (decode_failed _ _ _ _ a packet res e Ha Hp Hres Hdec).
    apply (getEnsText_decode_failed client p a packet res e log Ha Hp Hres Hdec).
  - apply (resolved _ _ _ _ a packet res o Ha Hp Hres Hdec).
    apply (getEnsText_resolved client p a packet res o log Ha Hp Hres Hdec).
Qed.

Lemma caught_inl (e e' : exn BaseError) :
  caught e = inl e' -> e' = e /\ isNullUniversalResolverError e "resolve" = false.
Proof.
  unfold caught. destruct (isNullUniversalResolverError e "resolve");
    [discriminate|]. intros Heq. injection Heq as <-. now split.
Qed.

Lemma caught_inr (e : exn BaseError) (v : value) :
  caught e = inr v -> v = VNull.
Proof.
  unfold caught. destruct (isNullUniversalResolverError e "resolve");
    [|discriminate]. intros Heq. now injection Heq as <-.
Qed.

(** The loop on sub-results that all decode, in and out of the range of
    the keys. *)
Lemma decodeRecords_decoded (results : list Hex) :
  forall ds keys i o,
    decoded_as results ds ->
    decodeRecords keys results i o =
    inr (assign o (combine (queried keys i (List.length results)) ds)).
Proof.
  induction results as [|r results IH]; intros ds keys i o Hds.
  - reflexivity.
  - inversion Hds as [|r' d results' ds' Hr Hrest]. subst.
    cbn [decodeRecords]. rewrite Hr. rewrite (IH ds') by assumption.
    reflexivity.
Qed.

Lemma decodeRecord_not_empty (r : Hex) (d : DecodedRecord) :
  decodeRecord r = inr d -> d <> Some "".
Proof.
  unfold decodeRecord. destruct (String.eqb r "0x").
  - intros Heq. injection Heq as <-. discriminate.
  - destruct (decodeFunctionResult textResolverAbi "text" r) as [e | record];
      [discriminate|].
    destruct (String.eqb_spec record "") as [-> | Hne]; intros Heq;
      injection Heq as <-; [discriminate|].
    intros Hc. injection Hc as ->. now elim Hne.
Qed.

Lemma decodeRecords_no_empty_string (results : list Hex) :
  forall keys i o o',
    no_empty_string o ->
    decodeRecords keys results i o = inr o' ->
    no_empty_string o'.
Proof.
  induction results as [|r results IH]; intros keys i o o' Ho Hrun.
  - cbn in Hrun. now injection Hrun as <-.
  - cbn [decodeRecords] in Hrun.
    destruct (decodeRecord r) as [e | d] eqn:Hr; [discriminate|].
    refine (IH keys (S i) _ o' _ Hrun).
    apply obj_set_no_empty_string; [assumption|].
    now apply (decodeRecord_not_empty r).
Qed.

Lemma In_firstn_In {A} (n : nat) (l : list A) (x : A) :
  In x (firstn n l) -> In x l.
Proof.
  revert l. induction n as [|n IH]; intros [|a l] Hin; simpl in *;
    try contradiction.
  destruct Hin as [-> | Hin]; [now left | right; now apply IH].
Qed.

Lemma decoded_as_sentinels (n : nat) : decoded_as (repeat "0x" n) (repeat None n).
Proof. induction n as [|n IH]; constructor; [reflexivity | exact IH]. Qed.

Lemma resolverAddress_explicit (client : Client Chain) (p : GetEnsTextParameters)
    (a : Address) :
  universalResolverAddress p = Some a -> a <> "" ->
  resolverAddress client p = inr a.
Proof.
  intros Ha Hne. unfold resolverAddress. rewrite Ha.
  apply String.eqb_neq in Hne. now rewrite Hne.
Qed.

(** X1: an explicit, non-empty resolver address is the address of the
    [resolve] call, whether or not the client has a chain and whatever the
    chain registry would answer. *)
Theorem getEnsText_explicit_address_is_called (client : Client Chain)
    (p : GetEnsTextParameters) (a : Address) (packet : list byte) (log : Log) :
  universalResolverAddress p = Some a ->
  a <> "" ->
  packetToBytes (name p) = inr packet ->
  exists call,
    fst (getEnsText client p log) = log ++ [call] /\
    address call = a /\
    call = resolve_call a packet p (keys_of (key p)).
Proof.
  intros Ha Hne Hp. exists (resolve_call a packet p (keys_of (key p))).
  split; [|now split].
  apply getEnsText_call_issued; [|assumption].
  now apply resolverAddress_explicit.
Qed.

(** X2: when no address is given and the chain registry fails, its error
    is thrown as it is and no contract call is issued; this happens before
    the [try] block, so the error is thrown even if
    [isNullUniversalResolverError] would recognise it. *)
Theorem getEnsText_registry_failure_propagates (client : Client Chain)
    (p : GetEnsTextParameters) (c : Chain) (e : exn BaseError) (log : Log) :
  universalResolverAddress p = None ->
  chain client = Some c ->
  getChainContractAddress (param_blockNumber p) c "ensUniversalResolver" = inl e ->
  getEnsText client p log = (log, inl e).
Proof.
  intros Ha Hc He.
  unfold getEnsText, bind, lift, resolverAddress.
  now rewrite Ha, Hc, He.
Qed.

(** X3: when the name cannot be encoded, no contract call is issued; the
    error is raised inside the [try] block, so it is thrown again unless
    [isNullUniversalResolverError] recognises it, in which case the answer
    is [null]. *)
Theorem getEnsText_packet_failure (client : Client Chain)
    (p : GetEnsTextParameters) (a : Address) (e : exn BaseError) (log : Log) :
  resolverAddress client p = inr a ->
  packetToBytes (name p) = inl e ->
  getEnsText client p log =
  (log, if isNullUniversalResolverError e "resolve" then inr VNull else inl e).
Proof.
  intros Ha Hp.
  unfold getEnsText, try_catch, bind, lift, ret, throw.
  rewrite Ha, Hp. now destruct (isNullUniversalResolverError e "resolve").
Qed.

(** X4: once the resolver address is known, [getEnsText] never throws an
    error that [isNullUniversalResolverError] recognises for ["resolve"],
    wherever in the [try] block the error arose. *)
Theorem getEnsText_never_throws_recognised_error (client : Client Chain)
    (p : GetEnsTextParameters) (a : Address) (e : exn BaseError) (log : Log) :
  resolverAddress client p = inr a ->
  snd (getEnsText client p log) = inl e ->
  isNullUniversalResolverError e "resolve" = false.
Proof.
  intros Ha Hthrown.
  destruct (getEnsText_outcome client p log)
    as [e0 Ha0 HR | a0 e0 _ _ HR | a0 packet e0 _ _ _ HR
        | a0 packet res e0 _ _ _ _ HR | a0 packet res o _ _ _ _ HR];
    rewrite HR in Hthrown; cbn [snd] in Hthrown.
  - congruence.
  - now apply caught_inl in Hthrown as [-> Hnull].
  - now apply caught_inl in Hthrown as [-> Hnull].
  - now apply caught_inl in Hthrown as [-> Hnull].
  - discriminate.
Qed.

(** X5: a run of [getEnsText] adds at most one contract call to the log.
    That call is a [resolve] call on the resolve-array ABI, at the block
    number and block tag of the request, and it carries one sub-call for
    each key, in the order of the keys. *)
Theorem getEnsText_at_most_one_call (client : Client Chain)
    (p : GetEnsTextParameters) (log : Log) :
  exists calls,
    fst (getEnsText client p log) = log ++ calls /\
    List.length calls <= 1 /\
    (forall c, In c calls ->
       functionName c = "resolve" /\
       abi c = universalResolverResolveArrayAbi /\
       blockNumber c = param_blockNumber p /\
       blockTag c = param_blockTag p /\
       snd (args c) =
         map (fun k => encodeFunctionData textResolverAbi "text"
                         (bytesToHex (namehash (name p)), k))
             (keys_of (key p))).
Proof.
  assert (Hcall : forall a packet,
            exists calls,
              log ++ [resolve_call a packet p (keys_of (key p))] = log ++ calls /\
              List.length calls <= 1 /\
              (forall c, In c calls ->
                 functionName c = "resolve" /\
                 abi c = universalResolverResolveArrayAbi /\
                 blockNumber c = param_blockNumber p /\
                 blockTag c = param_blockTag p /\
                 snd (args c) =
                   map (fun k => encodeFunctionData textResolverAbi "text"
                                   (bytesToHex (namehash (name p)), k))
                       (keys_of (key p)))).
  { intros a packet. exists [resolve_call a packet p (keys_of (key p))].
    split; [reflexivity|]. split; [simpl; lia|].
    intros c [<- | []]. now repeat split. }
  assert (Hnone : exists calls,
            log = log ++ calls /\
            List.length calls <= 1 /\
            (forall c, In c calls ->
               functionName c = "resolve" /\
               abi c = universalResolverResolveArrayAbi /\
               blockNumber c = param_blockNumber p /\
               blockTag c = param_blockTag p /\
               snd (args c) =
                 map (fun k => encodeFunctionData textResolverAbi "text"
                                 (bytesToHex (namehash (name p)), k))
                     (keys_of (key p)))).
  { exists []. split; [now rewrite app_nil_r|]. split; [simpl; lia|].
    intros c []. }
  destruct (getEnsText_outcome client p log)
    as [e0 _ HR | a0 e0 _ _ HR | a0 packet e0 _ _ _ HR
        | a0 packet res e0 _ _ _ _ HR | a0 packet res o _ _ _ _ HR];
    rewrite HR; cbn [fst]; auto.
Qed.

(** X6: [getEnsText] never answers the empty string: neither as the
    answer for one key nor as the value of a key in the mapping. *)
Theorem getEnsText_never_returns_empty_string (client : Client Chain)
    (p : GetEnsTextParameters) (log : Log) :
  snd (getEnsText client p log) <> inr (VString "") /\
  (forall o k,
     snd (getEnsText client p log) = inr (VRecords o) ->
     obj_lookup o k <> Some (Some "")).
Proof.
  assert (Hvalue : forall o k, no_empty_string o -> obj_lookup o k <> Some (Some "")).
  { intros o k Ho Hfind. apply obj_lookup_In in Hfind.
    unfold no_empty_string in Ho. rewrite Forall_forall in Ho.
    now apply (Ho _ Hfind). }
  assert (Hinherited : forall k, inherited k <> VString "").
  { intros k. unfold inherited.
    destruct (String.eqb k "__proto__"); [discriminate|].
    destruct (existsb (String.eqb k) prototype_methods); discriminate. }
  destruct (getEnsText_outcome client p log)
    as [e0 _ HR | a0 e0 _ _ HR | a0 packet e0 _ _ _ HR
        | a0 packet res e0 _ _ _ _ HR | a0 packet res o _ _ _ Hdec HR];
    rewrite HR; cbn [snd].
  - split; [discriminate | intros; discriminate].
  - split; [intros Hc | intros o k Hc]; apply caught_inr in Hc; discriminate.
  - split; [intros Hc | intros o k Hc]; apply caught_inr in Hc; discriminate.
  - split; [intros Hc | intros o k Hc]; apply caught_inr in Hc; discriminate.
  - assert (Ho : no_empty_string o).
    { apply (decodeRecords_no_empty_string _ _ _ empty_object o (Forall_nil _) Hdec). }
    destruct (Nat.eqb (List.length (keys_of (key p))) 1).
    + split.
      * unfold obj_get.
        destruct (obj_lookup o (key_of_argument (key p))) as [[s|]|] eqn:Hfind;
          cbn [value_of_record].
        -- intros Hc. injection Hc as ->. now apply (Hvalue o _ Ho Hfind).
        -- discriminate.
        -- intros Hc. injection Hc as Hc.
           destruct (has_prototype o); [now apply Hinherited in Hc | discriminate].
      * intros o' k Hc. injection Hc as Hc. exfalso. revert Hc. unfold obj_get.
        destruct (obj_lookup o (key_of_argument (key p))) as [[s|]|];
          cbn [value_of_record]; try discriminate.
        destruct (has_prototype o); [|discriminate].
        unfold inherited.
        destruct (String.eqb (key_of_argument (key p)) "__proto__");
          [discriminate|].
        destruct (existsb (String.eqb (key_of_argument (key p))) prototype_methods);
          discriminate.
    + split; [discriminate|].
      intros o' k Hc. injection Hc as <-. now apply Hvalue.
Qed.

(** X7: the shape of a successful answer goes by the number of keys.
    With exactly one key, whose name [Object.prototype] does not define,
    the answer is [undefined], [null] or a string; with any other number of
    keys it is [null] or a mapping. *)
Theorem getEnsText_answer_shape (client : Client Chain)
    (p : GetEnsTextParameters) (log : Log) (v : value) :
  snd (getEnsText client p log) = inr v ->
  (List.length (keys_of (key p)) = 1 ->
   key_of_argument (key p) <> "__proto__" ->
   ~ In (key_of_argument (key p)) prototype_methods ->
   v = VUndefined \/ v = VNull \/ exists s, v = VString s) /\
  (List.length (keys_of (key p)) <> 1 -> v = VNull \/ exists o, v = VRecords o).
Proof.
  intros Hv.
  destruct (getEnsText_outcome client p log)
    as [e0 _ HR | a0 e0 _ _ HR | a0 packet e0 _ _ _ HR
        | a0 packet res e0 _ _ _ _ HR | a0 packet res o _ _ _ _ HR];
    rewrite HR in Hv; cbn [snd] in Hv.
  - discriminate.
  - apply caught_inr in Hv as ->. split; intros; tauto.
  - apply caught_inr in Hv as ->. split; intros; tauto.
  - apply caught_inr in Hv as ->. split; intros; tauto.
  - injection Hv as <-. split.
    + intros Hone Hproto Hmethod. apply Nat.eqb_eq in Hone. rewrite Hone.
      unfold obj_get.
      destruct (obj_lookup o (key_of_argument (key p))) as [[s|]|];
        cbn [value_of_record]; [right; right; now exists s | tauto |].
      destruct (has_prototype o); [|tauto].
      unfold inherited. apply String.eqb_neq in Hproto. rewrite Hproto.
      destruct (existsb (String.eqb (key_of_argument (key p))) prototype_methods)
        eqn:Hm; [|tauto].
      exfalso. apply Hmethod. now apply mem_In.
    + intros Hmany. apply Nat.eqb_neq in Hmany. rewrite Hmany.
      right. now exists o.
Qed.

(** X8: when fewer sub-results come back than keys were asked for, the
    mapping holds no key past the last sub-result (such a key is missing,
    it is not mapped to [null]) and it holds every key before that, other
    than [__proto__]; when none of these is [__proto__] or an array index
    they stand in the order of the request. *)
Theorem getEnsText_missing_sub_results (client : Client Chain)
    (p : GetEnsTextParameters) (ks : list RecordKey) (a : Address)
    (packet : list byte) (results : list Hex) (resolver : Address)
    (ds : list DecodedRecord) (log : Log) :
  key p = Keys ks ->
  List.length ks <> 1 ->
  resolverAddress client p = inr a ->
  packetToBytes (name p) = inr packet ->
  readContract_response client (resolve_call a packet p ks) =
    inr (results, resolver) ->
  List.length results <= List.length ks ->
  decoded_as results ds ->
  exists o,
    getEnsText client p log =
      (log ++ [resolve_call a packet p ks], inr (VRecords o)) /\
    (forall k, ~ In k (firstn (List.length results) ks) -> obj_lookup o k = None) /\
    (forall k,
       In k (firstn (List.length results) ks) -> k <> "__proto__" ->
       In k (obj_keys o)) /\
    (~ In "__proto__" (firstn (List.length results) ks) ->
     Forall (fun k => array_index k = None) (firstn (List.length results) ks) ->
     obj_keys o = uniq (firstn (List.length results) ks)).
Proof.
  intros Hkey Hmany Ha Hp Hres Hlen Hds.
  pose proof (decoded_as_length results ds Hds) as Hdlen.
  assert (Hfst : map fst (combine ks ds) = firstn (List.length results) ks)
    by (rewrite map_fst_combine_firstn by lia; now rewrite Hdlen).
  exists (assign empty_object (combine ks ds)). split; [|split; [|split]].
  - pose proof (getEnsText_resolved client p a packet (results, resolver)
                  (assign empty_object (combine ks ds)) log Ha Hp) as Hrun.
    rewrite Hkey in Hrun. cbn [keys_of fst] in Hrun.
    rewrite Hrun; [| exact Hres |].
    + apply Nat.eqb_neq in Hmany. now rewrite Hmany.
    + apply (decodeRecords_in_range results ds [] ks empty_object); assumption.
  - intros k Hnot. apply obj_lookup_None. intros Hin.
    apply In_obj_keys_assign_inv in Hin as [[] | Hin].
    apply Hnot. now rewrite <- Hfst.
  - intros k Hin Hk. apply In_obj_keys_assign; [assumption|].
    right. now rewrite Hfst.
  - intros Hproto Hindex. rewrite obj_keys_assign; rewrite Hfst; try assumption.
    simpl. now apply filter_all.
Qed.

(** X9: when more sub-results come back than keys were asked for, the
    surplus ones are stored under the property name ["undefined"], the last
    of them last: the mapping maps ["undefined"] to the record decoded from
    the last sub-result. *)
Theorem getEnsText_surplus_sub_results (client : Client Chain)
    (p : GetEnsTextParameters) (ks : list RecordKey) (a : Address)
    (packet : list byte) (results : list Hex) (r : Hex) (resolver : Address)
    (ds : list DecodedRecord) (d : DecodedRecord) (log : Log) :
  key p = Keys ks ->
  List.length ks <> 1 ->
  resolverAddress client p = inr a ->
  packetToBytes (name p) = inr packet ->
  readContract_response client (resolve_call a packet p ks) =
    inr (results ++ [r], resolver) ->
  List.length ks <= List.length results ->
  decoded_as results ds ->
  decodeRecord r = inr d ->
  exists o,
    getEnsText client p log =
      (log ++ [resolve_call a packet p ks], inr (VRecords o)) /\
    obj_lookup o "undefined" = Some d.
Proof.
  intros Hkey Hmany Ha Hp Hres Hlen Hds Hd.
  pose proof (decoded_as_length results ds Hds) as Hdlen.
  assert (Hall : decoded_as (results ++ [r]) (ds ++ [d])).
  { apply Forall2_app; [assumption | now repeat constructor]. }
  set (n := List.length results) in *.
  set (kds := combine (queried ks 0 (List.length (results ++ [r]))) (ds ++ [d])).
  exists (assign empty_object kds). split.
  - pose proof (getEnsText_resolved client p a packet (results ++ [r], resolver)
                  (assign empty_object kds) log Ha Hp) as Hrun.
    rewrite Hkey in Hrun. cbn [keys_of fst] in Hrun.
    rewrite Hrun; [| exact Hres | now apply decodeRecords_decoded].
    apply Nat.eqb_neq in Hmany. now rewrite Hmany.
  - assert (Hsize : List.length (results ++ [r]) = S n)
      by (rewrite length_app; simpl; lia).
    apply (obj_lookup_assign_last kds empty_object n); [discriminate | |].
    + subst kds. apply nth_error_combine.
      * rewrite nth_error_queried by lia. cbn [Nat.add].
        assert (Hnone : nth_error ks n = None) by (apply nth_error_None; lia).
        now rewrite Hnone.
      * rewrite nth_error_app2 by lia.
        replace (n - List.length ds) with 0 by lia. reflexivity.
    + intros j Hlt Hsome.
      assert (Hj : j < List.length (map fst kds))
        by (apply nth_error_Some; congruence).
      subst kds.
      rewrite length_map, length_combine, length_queried, Hsize in Hj. lia.
Qed.

(** X10: for one key other than ["undefined"] and [__proto__], the
    answer is the record decoded from the first sub-result; further
    sub-results that decode, if any come back, do not change it. *)
Theorem getEnsText_single_key_first_sub_result (client : Client Chain)
    (p : GetEnsTextParameters) (k : RecordKey) (a : Address)
    (packet : list byte) (r : Hex) (rest : list Hex) (resolver : Address)
    (d : DecodedRecord) (ds : list DecodedRecord) (log : Log) :
  key p = Key k ->
  k <> "undefined" ->
  k <> "__proto__" ->
  resolverAddress client p = inr a ->
  packetToBytes (name p) = inr packet ->
  readContract_response client (resolve_call a packet p [k]) =
    inr (r :: rest, resolver) ->
  decodeRecord r = inr d ->
  decoded_as rest ds ->
  getEnsText client p log =
  (log ++ [resolve_call a packet p [k]], inr (value_of_record d)).
Proof.
  intros Hkey Hk Hproto Ha Hp Hres Hd Hds.
  set (kds := combine (queried [k] 1 (List.length rest)) ds).
  pose proof (getEnsText_resolved client p a packet (r :: rest, resolver)
                (assign (obj_set empty_object k d) kds) log Ha Hp) as Hrun.
  rewrite Hkey in Hrun. cbn [keys_of fst] in Hrun.
  rewrite Hrun; [| exact Hres |].
  - cbn [List.length Nat.eqb key_of_argument]. unfold obj_get.
    rewrite obj_lookup_assign_other.
    + now rewrite obj_lookup_set_same.
    + intros Hin. subst kds. apply In_map_fst_combine, In_firstn_In in Hin.
      apply queried_past_end in Hin; [contradiction | simpl; lia].
  - rewrite (decodeRecords_decoded (r :: rest) (d :: ds));
      [reflexivity | now constructor].
Qed.

(** X11: when every sub-result is the sentinel ["0x"], the mapping maps
    each requested key other than [__proto__] to [null]; the codec is not
    asked, so this holds even for a codec that rejects the sentinel.  When
    no key is [__proto__] or an array index, the keys stand in the order
    of the request. *)
Theorem getEnsText_all_sentinels (client : Client Chain)
    (p : GetEnsTextParameters) (ks : list RecordKey) (a : Address)
    (packet : list byte) (resolver : Address) (log : Log) :
  key p = Keys ks ->
  List.length ks <> 1 ->
  resolverAddress client p = inr a ->
  packetToBytes (name p) = inr packet ->
  readContract_response client (resolve_call a packet p ks) =
    inr (repeat "0x" (List.length ks), resolver) ->
  exists o,
    getEnsText client p log =
      (log ++ [resolve_call a packet p ks], inr (VRecords o)) /\
    (forall k, In k ks -> k <> "__proto__" -> obj_lookup o k = Some None) /\
    (~ In "__proto__" ks ->
     Forall (fun k => array_index k = None) ks ->
     obj_keys o = uniq ks).
Proof.
  intros Hkey Hmany Ha Hp Hres.
  set (n := List.length ks) in *.
  set (ds := repeat (@None string) n).
  assert (Hdlen : List.length ds = n) by apply repeat_length.
  exists (assign empty_object (combine ks ds)). split; [|split].
  - pose proof (getEnsText_resolved client p a packet (repeat "0x" n, resolver)
                  (assign empty_object (combine ks ds)) log Ha Hp) as Hrun.
    rewrite Hkey in Hrun. cbn [keys_of fst] in Hrun.
    rewrite Hrun; [| exact Hres |].
    + apply Nat.eqb_neq in Hmany. fold n. now rewrite Hmany.
    + apply decodeRecords_all; [apply decoded_as_sentinels | apply repeat_length].
  - intros k Hin Hk. apply obj_lookup_assign_constant; [assumption | |].
    + intros [k0 d0] Hkd. apply in_combine_r in Hkd.
      now apply repeat_spec in Hkd.
    + now rewrite map_fst_combine.
  - intros Hproto Hindex. now apply obj_keys_assign_empty.
Qed.

(** X12: when no address is given and the client has a chain, the
    [resolve] call goes to the address the chain registry gives for the
    contract ["ensUniversalResolver"] at the block number of the request. *)
Theorem getEnsText_chain_address_is_called (client : Client Chain)
    (p : GetEnsTextParameters) (c : Chain) (a : Address) (packet : list byte)
    (log : Log) :
  universalResolverAddress p = None ->
  chain client = Some c ->
  getChainContractAddress (param_blockNumber p) c "ensUniversalResolver" = inr a ->
  packetToBytes (name p) = inr packet ->
  exists call,
    fst (getEnsText client p log) = log ++ [call] /\
    address call = a /\
    call = resolve_call a packet p (keys_of (key p)).
Proof.
  intros Hnone Hc Ha Hp. exists (resolve_call a packet p (keys_of (key p))).
  split; [|now split].
  apply getEnsText_call_issued; [|assumption].
  unfold resolverAddress. now rewrite Hnone, Hc.
Qed.

End FurtherProperties.

(** ** The further theorems at concrete requests *)

Lemma explicit_address_example :
  exists call,
    fst (@getEnsText _ _ (Example.answers ["0x00https://alice.example"])
           Example.no_chain
           (Example.request_at Example.custom_resolver "alice.eth" (Key "url"))
           []) = [call] /\
    address call = Example.custom_resolver /\
    call = @resolve_call _ _ (Example.answers ["0x00https://alice.example"])
             Example.custom_resolver Example.alice_eth
             (Example.request_at Example.custom_resolver "alice.eth" (Key "url"))
             ["url"].
Proof.
  apply (@getEnsText_explicit_address_is_called _ _
           (Example.answers ["0x00https://alice.example"]) Example.no_chain
           (Example.request_at Example.custom_resolver "alice.eth" (Key "url"))
           Example.custom_resolver Example.alice_eth []);
    [reflexivity | discriminate | reflexivity].
Defined.

Lemma registry_failure_example :
  @getEnsText _ _ Example.unsupported_chain Example.mainnet
    (Example.request "alice.eth" (Key "url")) [] =
  ([], inl (Raised "ChainDoesNotSupportContract")).
Proof.
  apply (@getEnsText_registry_failure_propagates _ _ Example.unsupported_chain
           Example.mainnet (Example.request "alice.eth" (Key "url")) "mainnet"
           (Raised "ChainDoesNotSupportContract") []); reflexivity.
Defined.

Lemma packet_failure_example :
  @getEnsText _ _ (Example.answers ["0x"]) Example.mainnet
    (Example.request Example.long_name (Key "url")) [] =
  ([], inl (Raised "EncodingError")).
Proof.
  exact (@getEnsText_packet_failure _ _ (Example.answers ["0x"])
           Example.mainnet (Example.request Example.long_name (Key "url"))
           Example.universalResolver (Raised "EncodingError") []
           eq_refl eq_refl).
Defined.

Lemma never_throws_recognised_error_example :
  @isNullUniversalResolverError _ _ Example.transport_down
    (Raised "HttpRequestError") "resolve" = false.
Proof.
  apply (@getEnsText_never_throws_recognised_error _ _ Example.transport_down
           Example.mainnet (Example.request "alice.eth" (Key "url"))
           Example.universalResolver (Raised "HttpRequestError") []);
    reflexivity.
Defined.

Lemma answer_shape_example :
  (List.length (keys_of (Key "com.twitter")) = 1 ->
   key_of_argument (Key "com.twitter") <> "__proto__" ->
   ~ In (key_of_argument (Key "com.twitter")) prototype_methods ->
   VString "wagmi_sh" = VUndefined \/ VString "wagmi_sh" = VNull \/
   exists s, VString "wagmi_sh" = VString s) /\
  (List.length (keys_of (Key "com.twitter")) <> 1 ->
   VString "wagmi_sh" = VNull \/ exists o, VString "wagmi_sh" = VRecords o).
Proof.
  apply (@getEnsText_answer_shape _ _ (Example.answers ["0x00wagmi_sh"])
           Example.mainnet (Example.request "wagmi-dev.eth" (Key "com.twitter"))
           []).
  reflexivity.
Defined.

Lemma missing_sub_results_example :
  exists o,
    @getEnsText _ _ (Example.answers ["0x00a@b.c"]) Example.mainnet
      (Example.request "alice.eth" (Keys ["email"; "url"])) [] =
    ([@resolve_call _ _ (Example.answers ["0x00a@b.c"])
        Example.universalResolver Example.alice_eth
        (Example.request "alice.eth" (Keys ["email"; "url"])) ["email"; "url"]],
     inr (VRecords o)) /\
    obj_keys o = ["email"] /\
    obj_lookup o "url" = None.
Proof.
  destruct (@getEnsText_missing_sub_results _ _ (Example.answers ["0x00a@b.c"])
              Example.mainnet
              (Example.request "alice.eth" (Keys ["email"; "url"]))
              ["email"; "url"] Example.universalResolver Example.alice_eth
              ["0x00a@b.c"] Example.resolver [Some "a@b.c"] [])
    as (o & Hrun & Hmissing & _ & Horder);
    try reflexivity.
  - discriminate.
  - simpl. lia.
  - repeat constructor.
  - exists o. split; [exact Hrun|]. split.
    + apply Horder.
      * simpl. intros [Hc | []]. discriminate Hc.
      * repeat constructor.
    + apply Hmissing. simpl. intros [Hc | []]. discriminate Hc.
Defined.

Lemma surplus_sub_results_example :
  exists o,
    @getEnsText _ _ (Example.answers ["0x00a@b.c"; "0x"; "0x00stray"])
      Example.mainnet
      (Example.request "alice.eth" (Keys ["email"; "url"])) [] =
    ([@resolve_call _ _ (Example.answers ["0x00a@b.c"; "0x"; "0x00stray"])
        Example.universalResolver Example.alice_eth
        (Example.request "alice.eth" (Keys ["email"; "url"])) ["email"; "url"]],
     inr (VRecords o)) /\
    obj_lookup o "undefined" = Some (Some "stray").
Proof.
  apply (@getEnsText_surplus_sub_results _ _
           (Example.answers ["0x00a@b.c"; "0x"; "0x00stray"]) Example.mainnet
           (Example.request "alice.eth" (Keys ["email"; "url"]))
           ["email"; "url"] Example.universalResolver Example.alice_eth
           ["0x00a@b.c"; "0x"] "0x00stray" Example.resolver
           [Some "a@b.c"; None] (Some "stray") []);
    try reflexivity.
  - discriminate.
  - repeat constructor.
Defined.

Lemma single_key_first_sub_result_example :
  @getEnsText _ _ (Example.answers ["0x00wagmi_sh"; "0x00other"]) Example.mainnet
    (Example.request "wagmi-dev.eth" (Key "com.twitter")) [] =
  ([@resolve_call _ _ (Example.answers ["0x00wagmi_sh"; "0x00other"])
      Example.universalResolver
      (x09 :: stringToBytes "wagmi-dev" ++ x03 :: stringToBytes "eth" ++ [x00])
      (Example.request "wagmi-dev.eth" (Key "com.twitter")) ["com.twitter"]],
   inr (VString "wagmi_sh")).
Proof.
  apply (@getEnsText_single_key_first_sub_result _ _
           (Example.answers ["0x00wagmi_sh"; "0x00other"]) Example.mainnet
           (Example.request "wagmi-dev.eth" (Key "com.twitter")) "com.twitter"
           Example.universalResolver
           (x09 :: stringToBytes "wagmi-dev" ++ x03 :: stringToBytes "eth" ++ [x00])
           "0x00wagmi_sh" ["0x00other"] Example.resolver
           (Some "wagmi_sh") [Some "other"] []);
    try reflexivity.
  - discriminate.
  - discriminate.
  - repeat constructor.
Defined.

Lemma all_sentinels_example :
  exists o,
    @getEnsText _ _ (Example.answers ["0x"; "0x"]) Example.mainnet
      (Example.request "alice.eth" (Keys ["email"; "url"])) [] =
    ([@resolve_call _ _ (Example.answers ["0x"; "0x"])
        Example.universalResolver Example.alice_eth
        (Example.request "alice.eth" (Keys ["email"; "url"])) ["email"; "url"]],
     inr (VRecords o)) /\
    obj_keys o = ["email"; "url"] /\
    obj_lookup o "email" = Some None /\
    obj_lookup o "url" = Some None.
Proof.
  destruct (@getEnsText_all_sentinels _ _ (Example.answers ["0x"; "0x"])
              Example.mainnet
              (Example.request "alice.eth" (Keys ["email"; "url"]))
              ["email"; "url"] Example.universalResolver Example.alice_eth
              Example.resolver [])
    as (o & Hrun & Hnull & Horder);
    try reflexivity.
  - discriminate.
  - exists o. split; [exact Hrun|]. split; [|split].
    + apply Horder.
      * simpl. intros [Hc | [Hc | []]]; discriminate Hc.
      * repeat constructor.
    + apply Hnull; [simpl; tauto | discriminate].
    + apply Hnull; [simpl; tauto | discriminate].
Defined.

Lemma chain_address_example :
  exists call,
    fst (@getEnsText _ _ (Example.answers ["0x"]) Example.mainnet
           (Example.request "alice.eth" (Key "url")) []) = [call] /\
    address call = Example.universalResolver /\
    call = @resolve_call _ _ (Example.answers ["0x"]) Example.universalResolver
             Example.alice_eth (Example.request "alice.eth" (Key "url")) ["url"].
Proof.
  apply (@getEnsText_chain_address_is_called _ _ (Example.answers ["0x"])
           Example.mainnet (Example.request "alice.eth" (Key "url")) "mainnet"
           Example.universalResolver Example.alice_eth []); reflexivity.
Defined.
